(** * Voice-call agent: call termination, idle watchdog and stream adapters

    A shallow embedding of the call-lifecycle code of the agent
    ([agent/helper/agent_class.py], [utils/hungup_idle_call.py]) and of the
    two custom LLM stream adapters ([custom_websocket_llm.py],
    [custom_groq_llm.py]), with the properties claimed for them.

    Conventions.  Python coroutines run on one event loop, so every stretch
    of code between two [await]s is atomic.  Sequential code is written in a
    state-and-exception monad; whatever an external collaborator answers
    (the database queue, the session, the socket, the provider) is an
    explicit argument, so each definition is a total function that can be
    evaluated.  Where a claim is about what other tasks may do while a
    coroutine is suspended, the coroutine is cut at its [await]s and the
    pieces are interleaved by an explicit schedule. *)

From Stdlib Require Import ZArith List Ascii String Bool Lia Arith Sorted.
Import ListNotations.

Local Open Scope string_scope.

(** ** Python exceptions and the state-and-exception monad *)

(** [except Exception] catches every exception class except the few that
    derive from [BaseException] directly; [asyncio.CancelledError] is the one
    of those that matters to coroutines. *)
Inductive PyExc : Type :=
| PyException (cls : string) (msg : string)
| CancelledError.

Inductive Res (A : Type) : Type :=
| Val (a : A)
| Raised (e : PyExc).
Arguments Val {A} a.
Arguments Raised {A} e.

Definition M (S A : Type) : Type := S -> Res A * S.

Definition ret {S A} (a : A) : M S A := fun s => (Val a, s).

Definition bind {S A B} (m : M S A) (k : A -> M S B) : M S B :=
  fun s =>
    match m s with
    | (Val a, s') => k a s'
    | (Raised e, s') => (Raised e, s')
    end.

Definition raise {S A} (e : PyExc) : M S A := fun s => (Raised e, s).

Definition get {S} : M S S := fun s => (Val s, s).

Definition modify {S} (f : S -> S) : M S unit := fun s => (Val tt, f s).

(** The outcome of an awaited external call, decided by the collaborator. *)
Definition await {S A} (r : Res A) : M S A := fun s => (r, s).

(** [try: body  except Exception as e: handler(str(e))]. *)
Definition try_except {S A} (body : M S A) (handler : string -> M S A) : M S A :=
  fun s =>
    match body s with
    | (Raised (PyException _ msg), s') => handler msg s'
    | r => r
    end.

Declare Scope monad_scope.
Delimit Scope monad_scope with monad.
Notation "x <- m ;; k" := (bind m (fun x => k))
  (at level 61, m at next level, right associativity) : monad_scope.
Notation "m ;; k" := (bind m (fun _ => k))
  (at level 61, right associativity) : monad_scope.

Local Open Scope monad_scope.

(** ** CallState and the termination routine ([agent_class.py]) *)

Module CallTerminator.

Record CallState : Type := mkCallState {
  call_started : bool;
  call_end_recorded : bool;
  room_name : string
}.

(** What the routine does to the outside world, in order. *)
Inductive Effect : Type :=
| InsertCallEnd (room reason : string)   (* insert_call_end_async(room, reason) *)
| LogInfo (msg : string)
| LogError (msg : string)
| WaitForPlayout                         (* current_speech.wait_for_playout() *)
| Say (text : string)                    (* session.say(text=...) *)
| Hangup.                                (* hangup() *)

Record World : Type := mkWorld {
  call_state : CallState;
  trace : list Effect
}.

Definition emit (e : Effect) : M World unit :=
  modify (fun w => mkWorld (call_state w) (trace w ++ [e])).

Definition set_call_end_recorded (b : bool) : M World unit :=
  modify (fun w =>
    mkWorld (mkCallState (call_started (call_state w)) b (room_name (call_state w)))
            (trace w)).

(** The guard of line 75. *)
Definition guarded (w : World) : bool :=
  call_end_recorded (call_state w) || negb (call_started (call_state w)).

(** [record_call_end] has one suspension point, the [await] of
    [insert_call_end_async].  [record_call_end_enter] is the code up to that
    point (lines 75-83): it returns [None] when the guard returns early and
    otherwise the arguments of the call it is now waiting for. *)
Definition record_call_end_enter (end_reason : string)
  : M World (option (string * string)) :=
  w <- get ;;
  let cs := call_state w in
  if guarded w then ret None
  else
    set_call_end_recorded true ;;
    emit (InsertCallEnd (room_name cs) end_reason) ;;
    ret (Some (room_name cs, end_reason)).

(** The code after the suspension point (lines 80-86), given what the
    awaited call produced. *)
Definition record_call_end_resume (end_reason : string) (io : Res string)
  : M World unit :=
  try_except
    (operation_id <- await io ;;
     emit (LogInfo ("Queued call end recording: " ++ operation_id ++ " - " ++ end_reason)))
    (fun e => emit (LogError ("Failed to queue call end recording: " ++ e))).

(** The whole coroutine when nothing else runs while it is suspended. *)
Definition record_call_end (end_reason : string) (io : Res string) : M World unit :=
  p <- record_call_end_enter end_reason ;;
  match p with
  | None => ret tt
  | Some _ => record_call_end_resume end_reason io
  end.

(** What the collaborators answer during one [end_call]. *)
Record EndCallEnv : Type := mkEndCallEnv {
  insert_result : Res string;           (* insert_call_end_async *)
  current_speech : option (Res unit);   (* ctx.session.current_speech and its playout *)
  say_result : Res unit                 (* session.say *)
}.

Definition end_call_msg (current_language : string) : string :=
  if String.eqb "English" current_language
  then "Thank you so much for calling Earkart. Wish you good day ahead"
  else "EarKart को call करने के लिए बहुत-बहुत धन्यवाद".

(** [utils.hungup_idle_call.hangup]: its body is wrapped in
    [try/except Exception] and only logs, so it always returns. *)
Definition hangup : M World unit := emit Hangup.

(** Lines 176-188 of [end_call]: what follows [record_call_end]. *)
Definition closing (current_language : string) (env : EndCallEnv) : M World string :=
  match current_speech env with
  | Some playout => emit WaitForPlayout ;; await playout
  | None => ret tt
  end ;;
  emit (Say (end_call_msg current_language)) ;;
  await (say_result env) ;;
  hangup ;;
  ret "Noted".

(** Lines 164-188. *)
Definition end_call (participant : option string) (current_language : string)
    (env : EndCallEnv) : M World string :=
  let participant_id := match participant with Some i => i | None => "unknown" end in
  emit (LogInfo ("Agent initiated call end for " ++ participant_id)) ;;
  record_call_end "Call ended" (insert_result env) ;;
  closing current_language env.

(** *** Interleaved callers of [record_call_end]

    Several triggers may call [record_call_end] on the same CallState while
    earlier calls are still suspended at their [await].  A system state keeps
    the shared CallState and trace and the end reasons of the suspended calls. *)
Record Sys : Type := mkSys {
  world : World;
  suspended : list string
}.

Inductive Action : Type :=
| Invoke (end_reason : string)          (* a task calls record_call_end *)
| Resume (k : nat) (io : Res string).   (* the k-th suspended call is resumed *)

Fixpoint remove_nth {A} (k : nat) (l : list A) : list A :=
  match l, k with
  | [], _ => []
  | _ :: l', O => l'
  | x :: l', S k' => x :: remove_nth k' l'
  end.

Definition step (s : Sys) (a : Action) : Sys :=
  match a with
  | Invoke end_reason =>
      match record_call_end_enter end_reason (world s) with
      | (Val (Some _), w') => mkSys w' (suspended s ++ [end_reason])
      | (_, w') => mkSys w' (suspended s)
      end
  | Resume k io =>
      match nth_error (suspended s) k with
      | Some end_reason =>
          mkSys (snd (record_call_end_resume end_reason io (world s)))
                (remove_nth k (suspended s))
      | None => s
      end
  end.

Definition run (s : Sys) (acts : list Action) : Sys := fold_left step acts s.

Definition recorded (s : Sys) : bool := call_end_recorded (call_state (world s)).

(** The flag after each action of a run. *)
Fixpoint flags_along (s : Sys) (acts : list Action) : list bool :=
  match acts with
  | [] => []
  | a :: acts' => recorded (step s a) :: flags_along (step s a) acts'
  end.

Fixpoint rising_edges (prev : bool) (l : list bool) : nat :=
  match l with
  | [] => 0
  | b :: l' => (if negb prev && b then 1 else 0) + rising_edges b l'
  end.

Fixpoint falling_edges (prev : bool) (l : list bool) : nat :=
  match l with
  | [] => 0
  | b :: l' => (if prev && negb b then 1 else 0) + falling_edges b l'
  end.

Definition is_insert (e : Effect) : bool :=
  match e with InsertCallEnd _ _ => true | _ => false end.

Definition is_hangup (e : Effect) : bool :=
  match e with Hangup => true | _ => false end.

Definition count (p : Effect -> bool) (l : list Effect) : nat :=
  List.length (filter p l).

(** Inserts issued so far, plus one while the flag is still down. *)
Definition budget (s : Sys) : nat :=
  (count is_insert (trace (world s)) + if recorded s then 0 else 1)%nat.

End CallTerminator.

(** ** The idle-call watchdog ([utils/hungup_idle_call.py]) *)

Module IdleWatchdog.

Local Open Scope Z_scope.

(** Timestamps are [datetime] values, which count whole microseconds; they
    are integers here.  [(a - b).total_seconds() > n] for an [int] [n] is
    [a - b > seconds n]: the quotient by 10^6 is rounded to the nearest
    double and [n] is a double itself, so the comparison is the exact one as
    long as [n] stays below 10^9. *)
Definition seconds (n : Z) : Z := n * 1000000.

(** A [conversation_item_added] event: the role of the item and the clock
    reading [datetime.now()] the handler takes when it runs. *)
Record Event : Type := mkEvent {
  role : string;
  clock : Z
}.

(** The three [nonlocal] variables of [idle_call_watcher]. *)
Record Timers : Type := mkTimers {
  last_agent_finish_time : option Z;
  last_user_activity : Z;
  warning_sent : bool
}.

Definition on_conversation_item (ev : Event) (t : Timers) : Timers :=
  if String.eqb (role ev) "user" then
    mkTimers (last_agent_finish_time t) (clock ev) false
  else if String.eqb (role ev) "assistant" then
    mkTimers (Some (clock ev)) (last_user_activity t) false
  else t.

Inductive Effect : Type :=
| Say (text : string)     (* session.say(text) *)
| Pause (secs : Z)        (* asyncio.sleep(2) before hanging up *)
| Hangup.                 (* hangup() *)

(** Each effect is kept with the clock reading of line 134 of the iteration
    that issued it. *)
Record World : Type := mkWorld {
  timers : Timers;
  trace : list (Z * Effect)
}.

(** An [await]: the handlers that run while the loop is suspended, then how
    the awaited call ends. *)
Record Await : Type := mkAwait {
  delivered : list Event;
  wake : Res unit
}.

Definition deliver (evs : list Event) : M World unit :=
  modify (fun w =>
    mkWorld (fold_left (fun t ev => on_conversation_item ev t) evs (timers w))
            (trace w)).

Definition suspend (a : Await) : M World unit :=
  deliver (delivered a) ;; await (wake a).

Definition emit (now : Z) (e : Effect) : M World unit :=
  modify (fun w => mkWorld (timers w) (trace w ++ [(now, e)])).

Definition set_warning_sent (b : bool) : M World unit :=
  modify (fun w =>
    mkWorld (mkTimers (last_agent_finish_time (timers w))
                      (last_user_activity (timers w)) b)
            (trace w)).

Definition set_last_agent_finish_time (now : Z) : M World unit :=
  modify (fun w =>
    mkWorld (mkTimers (Some now) (last_user_activity (timers w))
                      (warning_sent (timers w)))
            (trace w)).

(** What the session and the clock answer during one iteration of the
    [while True] loop, in the order the loop asks. *)
Record TickEnv : Type := mkTickEnv {
  started_at_head : bool;      (* line 123: hasattr(session,'_started') and session._started *)
  sleep_tick : Await;          (* line 127: asyncio.sleep(1) *)
  now_after_sleep : Z;         (* line 134: datetime.now() *)
  started_at_warning : bool;   (* line 146 *)
  say_warning : Await;         (* line 147: session.say *)
  now_after_warning : Z;       (* line 150: datetime.now() *)
  started_at_hangup : bool;    (* line 162 *)
  say_closing : Await;         (* line 164: session.say *)
  sleep_closing : Await        (* line 165: asyncio.sleep(2) *)
}.

Inductive Control : Type := Continue | Break.

Definition warning_text : string := "Are you there? Please respond!".
Definition closing_text : string := "Thank you for calling. Hanging up due to inactivity.".

(** [hangup] of this module (lines 184-190): logs inside [try/except], so it
    always returns. *)
Definition hangup (now : Z) : M World unit := emit now Hangup.

(** Lines 143-157. *)
Definition warning_check (warning_timeout : Z) (env : TickEnv)
    (elapsed_since_agent : Z) : M World Control :=
  w <- get ;;
  if (elapsed_since_agent >? seconds warning_timeout) && negb (warning_sent (timers w))
  then
    try_except
      (if started_at_warning env then
         emit (now_after_sleep env) (Say warning_text) ;;
         suspend (say_warning env) ;;
         set_warning_sent true ;;
         set_last_agent_finish_time (now_after_warning env) ;;
         ret Continue
       else ret Break)
      (fun _ => ret Break)
  else ret Continue.

(** Lines 159-172. *)
Definition idle_check (idle_timeout : Z) (env : TickEnv)
    (elapsed_since_agent : Z) : M World Control :=
  if elapsed_since_agent >? seconds idle_timeout then
    try_except
      (if started_at_hangup env then
         emit (now_after_sleep env) (Say closing_text) ;;
         suspend (say_closing env) ;;
         emit (now_after_sleep env) (Pause 2) ;;
         suspend (sleep_closing env) ;;
         hangup (now_after_sleep env) ;;
         ret Break
       else ret Break)
      (fun _ => ret Break)
  else ret Continue.

(** One iteration of the loop, lines 122-172. *)
Definition iteration (idle_timeout warning_timeout : Z) (env : TickEnv)
  : M World Control :=
  if negb (started_at_head env) then ret Break
  else
    suspend (sleep_tick env) ;;
    w <- get ;;
    match last_agent_finish_time (timers w) with
    | None => ret Continue
    | Some anchor =>
        let elapsed_since_agent := now_after_sleep env - anchor in
        if last_user_activity (timers w) >? anchor then ret Continue
        else
          c <- warning_check warning_timeout env elapsed_since_agent ;;
          match c with
          | Break => ret Break
          | Continue => idle_check idle_timeout env elapsed_since_agent
          end
    end.

(** How the watcher stands after the iterations it was given. *)
Inductive Status : Type :=
| Running        (* still inside the loop *)
| Exited         (* the loop broke, or the outer [except Exception] logged *)
| Cancelled.     (* [CancelledError] was logged and raised again *)

Fixpoint watch (idle_timeout warning_timeout : Z) (envs : list TickEnv) (w : World)
  : Status * World :=
  match envs with
  | [] => (Running, w)
  | env :: rest =>
      match iteration idle_timeout warning_timeout env w with
      | (Val Continue, w') => watch idle_timeout warning_timeout rest w'
      | (Val Break, w') => (Exited, w')
      | (Raised (PyException _ _), w') => (Exited, w')
      | (Raised CancelledError, w') => (Cancelled, w')
      end
  end.

(** [idle_call_watcher(session, idle_timeout, warning_timeout)]: [now] is the
    clock reading of line 101. *)
Definition idle_call_watcher (idle_timeout warning_timeout : Z) (now : Z)
    (envs : list TickEnv) : Status * World :=
  watch idle_timeout warning_timeout envs (mkWorld (mkTimers None now false) []).

(** The run of the scenarios: the session stays up, no event arrives, speech
    and sleeps take no time on the clock, and the loop reads the clock at [t]. *)
Definition quiet : Await := mkAwait [] (Val tt).

Definition silent_tick (t : Z) : TickEnv :=
  mkTickEnv true quiet t true quiet t true quiet quiet.

(** Iterations one second apart, the first one a second after [T]. *)
Fixpoint ticks_after (T : Z) (n : nat) : list TickEnv :=
  match n with
  | O => []
  | S n' => silent_tick (T + seconds 1) :: ticks_after (T + seconds 1) n'
  end.

(** Iterations [step] apart on the clock, the first one [step] after [t]. *)
Fixpoint ticks_every (step t : Z) (n : nat) : list TickEnv :=
  match n with
  | O => []
  | S n' => silent_tick (t + step) :: ticks_every step (t + step) n'
  end.

Definition no_assistant (evs : list Event) : Prop :=
  Forall (fun ev => role ev <> "assistant") evs.

Definition no_user (evs : list Event) : Prop :=
  Forall (fun ev => role ev <> "user") evs.

(** An iteration of continued silence, whatever the clock reads: the
    session stays up, the sleeps and the closing line return with no turn
    event delivered, and the warning, when it is spoken, returns with no
    user turn delivered (the turn event of the warning itself may be). *)
Definition calm (env : TickEnv) : Prop :=
  started_at_head env = true
  /\ sleep_tick env = quiet
  /\ started_at_warning env = true
  /\ wake (say_warning env) = Val tt
  /\ no_user (delivered (say_warning env))
  /\ started_at_hangup env = true
  /\ say_closing env = quiet
  /\ sleep_closing env = quiet.

(** Turn events that are not assistant turns and whose clock reading is
    after the anchor [a]. *)
Definition later_turns (a : Z) (evs : list Event) : Prop :=
  Forall (fun ev => role ev <> "assistant" /\ a < clock ev) evs.

(** The countdown is paused: the user spoke after the anchor [a]. *)
Definition paused (a : Z) (t : Timers) : Prop :=
  last_agent_finish_time t = Some a
  /\ a < last_user_activity t
  /\ warning_sent t = false.

(** The state a user turn at clock reading [tu] leaves. *)
Definition user_turn (tu : Z) (w : World) : World :=
  mkWorld (on_conversation_item (mkEvent "user" tu) (timers w)) (trace w).

(** The state an assistant turn at clock reading [T] leaves. *)
Definition assistant_turn (T : Z) (w : World) : World :=
  mkWorld (on_conversation_item (mkEvent "assistant" T) (timers w)) (trace w).

End IdleWatchdog.

(** ** The socket backend ([custom_websocket_llm.py]) *)

Module SocketBackend.

Local Open Scope Z_scope.

(** *** Chat context *)

(** What [_extract_message_content] can find in a chat item. *)
Inductive Body : Type :=
| ContentList (items : list string)  (* msg.content is a list; each entry by its str() *)
| ContentOther (text : string)       (* any other msg.content, by its str() *)
| TextOnly (text : string)           (* no content attribute, but msg.text *)
| Opaque (repr : string).            (* neither attribute: str(msg) *)

(** [role] is [None] for an item without that attribute, for which
    [getattr(msg, 'role', '')] is the empty string. *)
Record ChatItem : Type := mkChatItem {
  role : option string;
  body : Body
}.

Definition is_user (msg : ChatItem) : bool :=
  String.eqb (match role msg with Some r => r | None => "" end) "user".

Definition extract_message_content (msg : ChatItem) : string :=
  match body msg with
  | ContentList items => String.concat " " items
  | ContentOther text => text
  | TextOnly text => text
  | Opaque repr => repr
  end.

(** Lines 97-103: the first user item of [reversed(chat_ctx.items)]. *)
Definition latest_user_message (items : list ChatItem) : option ChatItem :=
  find is_user (rev items).

(** *** The connection and [_send_request] *)

Inductive WsState : Type :=
| NoSocket        (* self._ws is None *)
| OpenSocket      (* self._ws.close_code is None *)
| ClosedSocket.   (* self._ws.close_code is set *)

Record Request : Type := mkRequest {
  interaction_type : string;
  response_id : Z;
  transcript : list (string * string)   (* [{"role": r, "content": c}] *)
}.

Inductive WireEvent : Type :=
| Connected                (* websockets.connect called *)
| Transmitted (r : Request).   (* self._ws.send(json.dumps(r)) called *)

Record Client : Type := mkClient {
  ws : WsState;
  response_id_counter : Z;
  wire : list WireEvent
}.

Definition new_client : Client := mkClient NoSocket 0 [].

Definition set_ws (s : WsState) : M Client unit :=
  modify (fun c => mkClient s (response_id_counter c) (wire c)).

Definition emit (e : WireEvent) : M Client unit :=
  modify (fun c => mkClient (ws c) (response_id_counter c) (wire c ++ [e])).

Definition increment_response_id : M Client Z :=
  modify (fun c => mkClient (ws c) (response_id_counter c + 1) (wire c)) ;;
  c <- get ;;
  ret (response_id_counter c).

(** What the network answers during one [_send_request]. *)
Record SendEnv : Type := mkSendEnv {
  connect_result : Res unit;    (* wait_for(websockets.connect(url), timeout) *)
  config_result : Res unit;     (* first recv() after connecting *)
  greeting_result : Res unit;   (* second recv() after connecting *)
  send_result : Res unit        (* self._ws.send(...) *)
}.

(** The exceptions by which [websockets] reports that the connection is
    closed.  [close_code] of the socket is set when one of them is raised;
    any other exception, a cancellation among them, leaves the socket as it
    was. *)
Definition connection_closed (e : PyExc) : bool :=
  match e with
  | PyException cls _ =>
      String.eqb cls "ConnectionClosed"
      || String.eqb cls "ConnectionClosedOK"
      || String.eqb cls "ConnectionClosedError"
  | CancelledError => false
  end.

(** An awaited call on the socket: [self._ws.recv()] at lines 63 and 66,
    [self._ws.send(...)] at line 125; [r] is how it ends. *)
Definition on_socket (r : Res unit) : M Client unit :=
  match r with
  | Val _ => ret tt
  | Raised e =>
      (if connection_closed e then set_ws ClosedSocket else ret tt) ;;
      raise e
  end.

(** Lines 51-73.  The handler of the [try] logs and raises the same
    exception again, so it is left out. *)
Definition ensure_connection (env : SendEnv) : M Client unit :=
  c <- get ;;
  match ws c with
  | OpenSocket => ret tt
  | _ =>
      emit Connected ;;
      await (connect_result env) ;;
      set_ws OpenSocket ;;
      on_socket (config_result env) ;;
      on_socket (greeting_result env)
  end.

(** Lines 89-127, the body under [async with self._request_lock]. *)
Definition send_request (items : list ChatItem) (env : SendEnv) : M Client Z :=
  ensure_connection env ;;
  match latest_user_message items with
  | None => raise (PyException "ValueError" "No user message found")
  | Some latest_message =>
      let content := extract_message_content latest_message in
      let transcript := [("user", content)] in
      current_response_id <- increment_response_id ;;
      emit (Transmitted (mkRequest "response_required" current_response_id transcript)) ;;
      on_socket (send_result env) ;;
      ret current_response_id
  end.

(** Chat turns one after the other on the same client. *)
Fixpoint send_all (calls : list (list ChatItem * SendEnv)) (c : Client)
  : list (Res Z) * Client :=
  match calls with
  | [] => ([], c)
  | (items, env) :: rest =>
      let '(r, c') := send_request items env c in
      let '(rs, c'') := send_all rest c' in
      (r :: rs, c'')
  end.

Definition transmitted_ids (w : list WireEvent) : list Z :=
  flat_map (fun e => match e with Transmitted r => [response_id r] | Connected => [] end) w.

Definition transmitted_requests (w : list WireEvent) : list Request :=
  flat_map (fun e => match e with Transmitted r => [r] | Connected => [] end) w.

Fixpoint successes (rs : list (Res Z)) : list Z :=
  match rs with
  | [] => []
  | Val id :: rs' => id :: successes rs'
  | Raised _ :: rs' => successes rs'
  end.

(** Requests on the wire are numbered in increasing order, none above the
    counter. *)
Definition wire_ordered (c : Client) : Prop :=
  StronglySorted Z.lt (transmitted_ids (wire c))
  /\ Forall (fun id => id <= response_id_counter c) (transmitted_ids (wire c)).

(** *** Inbound frames and [_receive_response] *)

(** A Python [float]: not-a-number, an infinity, or the dyadic [m * 2^e]. *)
Inductive PyFloat : Type :=
| FNan
| FInf (negative : bool)
| FFinite (m e : Z).

(** What [json.loads] returns.  An object is the [dict] built from it, as the
    list of its items. *)
#[local] Unset Elimination Schemes.
Inductive Json : Type :=
| JNull
| JBool (b : bool)
| JInt (n : Z)
| JFloat (f : PyFloat)
| JStr (s : string)
| JArr (l : list Json)
| JObj (fields : list (string * Json)).
#[local] Set Elimination Schemes.

(** One [await wait_for(self._ws.recv(), timeout)] followed by [json.loads]. *)
Inductive Inbound : Type :=
| Undecodable (raw : string)   (* json.loads raises JSONDecodeError *)
| Decoded (v : Json)
| RecvFails (e : PyExc).       (* TimeoutError, ConnectionClosed, cancellation *)

Fixpoint lookup (key : string) (fields : list (string * Json)) : option Json :=
  match fields with
  | [] => None
  | (k, v) :: rest => if String.eqb k key then Some v else lookup key rest
  end.

(** [d.get(key, default)]; [d.get(key)] has [None] for its default. *)
Definition dict_get (fields : list (string * Json)) (key : string) (default : Json) : Json :=
  match lookup key fields with Some v => v | None => default end.

(** [v == s] for a [str] [s]. *)
Definition py_eq_str (v : Json) (s : string) : bool :=
  match v with JStr s' => String.eqb s' s | _ => false end.

(** [v == n] for an [int] [n]: [bool] is a subclass of [int], and a [float]
    equals the integer of the same value. *)
Definition py_eq_int (v : Json) (n : Z) : bool :=
  match v with
  | JInt m => m =? n
  | JBool b => (if b then 1 else 0) =? n
  | JFloat (FFinite m e) =>
      if 0 <=? e then m * 2 ^ e =? n else m =? n * 2 ^ (- e)
  | _ => false
  end.

(** [bool(v)], as [if v:] takes it. *)
Definition truthy (v : Json) : bool :=
  match v with
  | JNull => false
  | JBool b => b
  | JInt n => negb (n =? 0)
  | JFloat (FFinite m _) => negb (m =? 0)
  | JFloat _ => true
  | JStr s => negb (String.eqb s "")
  | JArr l => match l with [] => false | _ => true end
  | JObj fields => match fields with [] => false | _ => true end
  end.

(** How the generator stands after the frames it was given. *)
Inductive Outcome : Type :=
| Completed            (* a matching frame carried the completion flag *)
| Failed (e : PyExc)   (* the handler logged and raised again *)
| Waiting.             (* still inside the loop, at the next recv() *)

(** Lines 129-177: the deltas yielded, in order, and how the generator
    stands.  [full_content] is only logged and is the concatenation of the
    deltas; the [end_call] flag is only logged too. *)
Fixpoint receive_response (expected_response_id : Z) (inbound : list Inbound)
  : list string * Outcome :=
  match inbound with
  | [] => ([], Waiting)
  | RecvFails e :: _ => ([], Failed e)
  | Undecodable _ :: rest => receive_response expected_response_id rest
  | Decoded (JObj response) :: rest =>
      if py_eq_str (dict_get response "response_type" JNull) "response"
         && py_eq_int (dict_get response "response_id" JNull) expected_response_id
      then
        let content := dict_get response "content" (JStr "") in
        let is_complete := dict_get response "content_complete" (JBool false) in
        if truthy content then
          match content with
          | JStr s =>
              if truthy is_complete then ([s], Completed)
              else
                let '(deltas, o) := receive_response expected_response_id rest in
                (s :: deltas, o)
          | _ =>
              ([], Failed (PyException "TypeError" "can only concatenate str to str"))
          end
        else if truthy is_complete then ([], Completed)
        else receive_response expected_response_id rest
      else receive_response expected_response_id rest
  | Decoded _ :: _ =>
      ([], Failed (PyException "AttributeError" "object has no attribute 'get'"))
  end.

Definition full_content (deltas : list string) : string := String.concat "" deltas.

(** Frames of the wire protocol: text that is not JSON at all, or an object
    whose [response_id], [content] and [content_complete], when present, are
    an integer, a string and a boolean. *)
Definition typed_field (fields : list (string * Json)) (key : string)
    (ok : Json -> bool) : bool :=
  match lookup key fields with Some v => ok v | None => true end.

Definition protocol_frame (f : Inbound) : bool :=
  match f with
  | Undecodable _ => true
  | Decoded (JObj fields) =>
      typed_field fields "response_id" (fun v => match v with JInt _ => true | _ => false end)
      && typed_field fields "content" (fun v => match v with JStr _ => true | _ => false end)
      && typed_field fields "content_complete" (fun v => match v with JBool _ => true | _ => false end)
  | _ => false
  end.

(** The stream as the specification words it. *)
Definition matches (N : Z) (f : Inbound) : bool :=
  match f with
  | Decoded (JObj fields) =>
      match lookup "response_type" fields, lookup "response_id" fields with
      | Some (JStr t), Some (JInt n) => String.eqb t "response" && (n =? N)
      | _, _ => false
      end
  | _ => false
  end.

Definition content_of (f : Inbound) : string :=
  match f with
  | Decoded (JObj fields) =>
      match lookup "content" fields with Some (JStr s) => s | _ => "" end
  | _ => ""
  end.

Definition content_complete (f : Inbound) : bool :=
  match f with
  | Decoded (JObj fields) =>
      match lookup "content_complete" fields with Some (JBool b) => b | _ => false end
  | _ => false
  end.

(** The frames up to and including the first one that satisfies [p]. *)
Fixpoint through {A} (p : A -> bool) (l : list A) : list A :=
  match l with
  | [] => []
  | x :: l' => if p x then [x] else x :: through p l'
  end.

Definition non_empty (s : string) : bool := negb (String.eqb s "").

Definition spec_stream (N : Z) (frames : list Inbound) : list string * Outcome :=
  let matching := filter (matches N) frames in
  (filter non_empty (map content_of (through content_complete matching)),
   if existsb content_complete matching then Completed else Waiting).

(** A frame as the service sends it. *)
Definition response_frame (id : Z) (content : string) (complete : bool) : Inbound :=
  Decoded (JObj [("response_type", JStr "response");
                 ("response_id", JInt id);
                 ("content", JStr content);
                 ("content_complete", JBool complete);
                 ("end_call", JBool false)]).

(** *** Chat turns sharing one client

    [WebSocketLLMChatContext.__aenter__] awaits [_send_request], which takes
    [_request_lock] for its own body (line 92) and gives it back when it
    returns.  The generator made from [_receive_response] starts running at
    the first [__anext__] of the stream and takes the same lock again (line
    135) for as long as it drains.  A turn is cut where it can be suspended
    while other turns run. *)
Inductive Phase : Type :=
| WantsSend                (* at line 92, before the lock is taken *)
| Sending                  (* holds the lock, inside lines 93-127 *)
| WantsDrain (id : Z)      (* _send_request returned id; at line 135 *)
| Draining (id : Z)        (* holds the lock, inside lines 136-170 *)
| SendRaised (e : PyExc)   (* _send_request raised; the lock is released *)
| Finished.                (* the generator is exhausted; the lock is released *)

Record Turn : Type := mkTurn {
  items : list ChatItem;
  env : SendEnv
}.

Inductive Hist : Type :=
| SendDone (task : nat) (id : Z)
| DrainBegin (task : nat) (id : Z)
| DrainEnd (task : nat) (id : Z).

Record Loop : Type := mkLoop {
  request_lock : option nat;   (* the task that holds self._request_lock *)
  client : Client;
  phase : nat -> Phase;
  history : list Hist
}.

Definition set_phase (t : nat) (p : Phase) (f : nat -> Phase) : nat -> Phase :=
  fun t' => if Nat.eqb t' t then p else f t'.

(** The event loop runs task [t] up to its next suspension.  A task that
    finds the lock taken stays where it is. *)
Definition step (turns : nat -> Turn) (l : Loop) (t : nat) : Loop :=
  match phase l t with
  | WantsSend =>
      match request_lock l with
      | None => mkLoop (Some t) (client l) (set_phase t Sending (phase l)) (history l)
      | Some _ => l
      end
  | Sending =>
      match send_request (items (turns t)) (env (turns t)) (client l) with
      | (Val id, c') =>
          mkLoop None c' (set_phase t (WantsDrain id) (phase l))
                 (history l ++ [SendDone t id])
      | (Raised e, c') =>
          mkLoop None c' (set_phase t (SendRaised e) (phase l)) (history l)
      end
  | WantsDrain id =>
      match request_lock l with
      | None =>
          mkLoop (Some t) (client l) (set_phase t (Draining id) (phase l))
                 (history l ++ [DrainBegin t id])
      | Some _ => l
      end
  | Draining id =>
      mkLoop None (client l) (set_phase t Finished (phase l))
             (history l ++ [DrainEnd t id])
  | SendRaised _ => l
  | Finished => l
  end.

Definition schedule (turns : nat -> Turn) (sched : list nat) (l : Loop) : Loop :=
  fold_left (step turns) sched l.

Definition start : Loop := mkLoop None new_client (fun _ => WantsSend) [].

Definition holds_lock (p : Phase) : bool :=
  match p with Sending | Draining _ => true | _ => false end.

(** The lock is held by exactly the task that is inside one of the two
    [async with] blocks. *)
Definition lock_invariant (l : Loop) : Prop :=
  forall t, holds_lock (phase l t) = true <-> request_lock l = Some t.

(** Another task's send lies between a task's send and the start of its drain. *)
Definition send_in_between (h : list Hist) : Prop :=
  exists t1 id1 t2 id2 h1 h2 h3 h4,
    t1 <> t2 /\
    h = (h1 ++ SendDone t1 id1 :: h2 ++ SendDone t2 id2 :: h3 ++ DrainBegin t1 id1 :: h4)%list.

(** Every network call succeeds. *)
Definition network_up : SendEnv := mkSendEnv (Val tt) (Val tt) (Val tt) (Val tt).

Definition user_says (text : string) : ChatItem := mkChatItem (Some "user") (ContentList [text]).

End SocketBackend.

(** ** The hosted-provider backend ([custom_groq_llm.py]) *)

Module HostedBackend.

(** [chunk.choices[0].delta.content] as line 69 sees it. *)
Inductive DeltaContent : Type :=
| NoContentAttr             (* hasattr(delta, 'content') is false *)
| ContentNone               (* delta.content is None *)
| ContentStr (s : string).

Record Choice : Type := mkChoice { delta : DeltaContent }.

(** [choices] is empty also when [chunk.choices] is [None]. *)
Record Chunk : Type := mkChunk { choices : list Choice }.

(** What the provider does with [chat.completions.create] on the generation parameters: fails at
    once, or returns an iterator that gives some chunks and then stops or
    raises.  [ident] stands for [id(completion)]. *)
Inductive Completion : Type :=
| CreateFails (e : PyExc)
| Stream (ident : string) (chunks : list Chunk) (ending : option PyExc).

(** [llm.ChoiceDelta] and [llm.ChatChunk] of LiveKit 1.1.4, as far as the
    adapters use them: a chunk has an [id] and a [delta], which is unset
    unless it is given ([custom_websocket_llm.py], lines 288-291, builds
    its chunks with [id=] and [delta=]). *)
Record ChoiceDelta : Type := mkChoiceDelta {
  role : string;
  content : string
}.

Record ChatChunk : Type := mkChatChunk {
  id : string;
  chunk_delta : option ChoiceDelta
}.

(** The event channel of the stream, [self._event_ch]: the [utils.aio.Chan]
    that [LLMStream.__init__] creates. *)
Record Chan : Type := mkChan {
  closed : bool;
  sent : list ChatChunk
}.

(** Lines 104-137.  [ChoiceDelta(content=content, role="assistant")] takes
    the string as it is and the dynamic [Choice] object holds it, but
    [ChatChunk(id=chunk_id, choices=[choice])] names no field of the chunk
    other than [id]: the keyword that is not a field is dropped and [delta]
    stays unset.  Nothing raises, so the stand-in class of lines 129-137 is
    never built. *)
Definition create_chat_chunk (chunk_id content : string) : ChatChunk :=
  let choice_delta := mkChoiceDelta "assistant" content in
  let choice := (choice_delta, 0%nat) in
  let choices := [choice] in
  mkChatChunk chunk_id None.

(** What leaves [self._event_ch.asend]. *)
Definition no_asend : PyExc :=
  PyException "AttributeError" "'Chan' object has no attribute 'asend'".

(** [await self._event_ch.asend(chunk)], lines 77, 91 and 102.  The channel
    class offers [send_nowait], [recv] and [close], and no [asend]: looking
    the attribute up raises before anything is awaited, whatever state the
    channel is in, and the chunk does not reach it. *)
Definition asend (c : ChatChunk) : M Chan unit :=
  raise no_asend.

Definition fallback_text : string :=
  "I apologize, but I'm having trouble generating a response right now.".

Definition apology_text : string :=
  "I'm sorry, I'm experiencing technical difficulties. Please try again.".

(** Lines 64-80, with [content_buffer] as accumulator; the iterator ends by
    stopping ([None]) or by raising. *)
Fixpoint forward (chunk_id : string) (chunks : list Chunk) (ending : option PyExc)
    (content_buffer : string) : M Chan string :=
  match chunks with
  | [] =>
      match ending with
      | None => ret content_buffer
      | Some e => raise e
      end
  | chunk :: rest =>
      match choices chunk with
      | choice :: _ =>
          match delta choice with
          | ContentStr s =>
              if negb (String.eqb s "") then
                asend (create_chat_chunk chunk_id s) ;;
                forward chunk_id rest ending (content_buffer ++ s)
              else forward chunk_id rest ending content_buffer
          | _ => forward chunk_id rest ending content_buffer
          end
      | [] => forward chunk_id rest ending content_buffer
      end
  end.

(** [GroqLLMStream._run], lines 48-102.  [exc_ident] stands for [id(e)]. *)
Definition run (completion : Completion) (exc_ident : string) : M Chan unit :=
  try_except
    (match completion with
     | CreateFails e => raise e
     | Stream ident chunks ending =>
         let chunk_id := "groq_" ++ ident in
         content_buffer <- forward chunk_id chunks ending "" ;;
         if Nat.eqb (String.length content_buffer) 0 then
           asend (create_chat_chunk chunk_id fallback_text)
         else ret tt
     end)
    (fun _ => asend (create_chat_chunk ("groq_error_" ++ exc_ident) apology_text)).

(** The text deltas the provider emits: the non-empty [content] of the first
    choice of each chunk. *)
Fixpoint deltas (chunks : list Chunk) : list string :=
  match chunks with
  | [] => []
  | chunk :: rest =>
      match choices chunk with
      | choice :: _ =>
          match delta choice with
          | ContentStr s => if negb (String.eqb s "") then s :: deltas rest else deltas rest
          | _ => deltas rest
          end
      | [] => deltas rest
      end
  end.

Definition open_chan : Chan := mkChan false [].

Definition text (s : string) : Chunk := mkChunk [mkChoice (ContentStr s)].

(** The provider call, or the iterator before it has given any text, is
    cancelled. *)
Definition cancelled_before_text (completion : Completion) : bool :=
  match completion with
  | CreateFails CancelledError => true
  | Stream _ chunks (Some CancelledError) =>
      match deltas chunks with
      | [] => true
      | _ :: _ => false
      end
  | _ => false
  end.

End HostedBackend.

(** ** The other function tools of the agent ([agent_class.py]) *)

Module AgentTools.

Import CallTerminator.

(** Lines 190-198. *)
Definition detected_answering_machine (participant : option string) (io : Res string)
  : M World string :=
  let participant_id := match participant with Some i => i | None => "unknown" end in
  emit (LogInfo ("Detected answering machine for " ++ participant_id)) ;;
  record_call_end "Answering machine detected" io ;;
  hangup ;;
  ret "Noted".

(** The two tools that end a call, with what the collaborators answer. *)
Inductive ToolCall : Type :=
| EndCall (participant : option string) (current_language : string) (env : EndCallEnv)
| AnsweringMachine (participant : option string) (io : Res string).

Definition invoke (t : ToolCall) : M World string :=
  match t with
  | EndCall participant current_language env => end_call participant current_language env
  | AnsweringMachine participant io => detected_answering_machine participant io
  end.

(** The reason the tool passes to [record_call_end]. *)
Definition end_reason (t : ToolCall) : string :=
  match t with
  | EndCall _ _ _ => "Call ended"
  | AnsweringMachine _ _ => "Answering machine detected"
  end.

(** Tool calls one after the other on the same agent.  Each is an
    invocation of its own: what one returns or raises is not seen by the
    next, only the CallState and the outside world are shared. *)
Definition invoke_all (ts : list ToolCall) (w : World) : World :=
  fold_left (fun w t => snd (invoke t w)) ts w.

(** *** [search_earkart_knowledge_base], lines 104-127

    The state is [self._seen_results], a set, kept as the list of its
    members; only membership is ever asked of it. *)
Definition mem (r : string) (seen : list string) : bool :=
  existsb (String.eqb r) seen.

Inductive ToolResult : Type :=
| Message (text : string)
| Snippets (new_results : list string).

(** [rag] is what [enrich_with_rag(query)] gives.  The [context] string of
    lines 123-125 is built and dropped. *)
Definition search_earkart_knowledge_base (query : string) (rag : Res (list string))
  : M (list string) ToolResult :=
  all_results <- await rag ;;
  seen <- get ;;
  let new_results := filter (fun r => negb (mem r seen)) all_results in
  if Nat.eqb (List.length new_results) 0 then
    ret (Message ("No new context found for query: " ++ query ++ "."))
  else
    let new_results := firstn 2 new_results in
    modify (fun seen => (seen ++ new_results)%list) ;;
    ret (Snippets new_results).

(** Searches one after the other; a search that raises leaves the set as
    it is. *)
Fixpoint search_all (qs : list (string * Res (list string))) (seen : list string)
  : list (Res ToolResult) * list string :=
  match qs with
  | [] => ([], seen)
  | (query, rag) :: rest =>
      let '(r, seen') := search_earkart_knowledge_base query rag seen in
      let '(rs, seen'') := search_all rest seen' in
      (r :: rs, seen'')
  end.

Definition snippets (r : Res ToolResult) : list string :=
  match r with
  | Val (Snippets l) => l
  | _ => []
  end.

End AgentTools.

(** ** Reading the watchdog's trace *)

Module WatchdogTrace.

Import IdleWatchdog.

Definition is_hangup (e : Z * Effect) : bool :=
  match snd e with Hangup => true | _ => false end.

Definition is_warning (e : Z * Effect) : bool :=
  match snd e with Say text => String.eqb text warning_text | _ => false end.

Definition warnings (tr : list (Z * Effect)) : nat :=
  List.length (filter is_warning tr).

(** The three effects of lines 164-166, stamped with the reading [t]. *)
Definition farewell (t : Z) : list (Z * Effect) :=
  [(t, Say closing_text); (t, Pause 2); (t, Hangup)].

(** No turn event arrives during the sleep of the iteration or while its
    warning is spoken. *)
Definition eventless (env : TickEnv) : Prop :=
  delivered (sleep_tick env) = [] /\ delivered (say_warning env) = [].

(** The timers as the tests of lines 130-160 see them: after the handlers
    that ran during the sleep. *)
Definition after_sleep (env : TickEnv) (w : World) : Timers :=
  fold_left (fun t ev => on_conversation_item ev t) (delivered (sleep_tick env)) (timers w).

End WatchdogTrace.

(** ** The socket client around the request ([custom_websocket_llm.py]) *)

Module SocketClient.

Import SocketBackend.

Local Open Scope Z_scope.

(** [s.rstrip('/')].  The byte of ['/'] occurs in UTF-8 text only as that
    character, so stripping bytes is stripping characters. *)
Fixpoint rstrip_slash (s : string) : string :=
  match s with
  | EmptyString => EmptyString
  | String c rest =>
      match rstrip_slash rest with
      | EmptyString => if Ascii.eqb c "/"%char then EmptyString else String c EmptyString
      | r => String c r
      end
  end.

(** Line 41. *)
Definition full_ws_url (ws_url call_id : string) : string :=
  rstrip_slash ws_url ++ "/" ++ call_id.

(** [text.replace('-', '')]. *)
Fixpoint remove_hyphens (text : string) : string :=
  match text with
  | EmptyString => EmptyString
  | String c rest =>
      if Ascii.eqb c "-"%char then remove_hyphens rest else String c (remove_hyphens rest)
  end.

(** [text[:n]]. *)
Fixpoint take (n : nat) (text : string) : string :=
  match n, text with
  | S n', String c rest => String c (take n' rest)
  | _, _ => EmptyString
  end.

(** Lines 45-49; [uuid_text] is [str(uuid.uuid4())]. *)
Definition generate_call_id (uuid_text : string) : string :=
  take 20 (remove_hyphens uuid_text).

(** Line 31: [call_id or self._generate_call_id()]; an empty [call_id] is
    as good as none. *)
Definition choose_call_id (call_id : option string) (uuid_text : string) : string :=
  match call_id with
  | Some (String c rest) => String c rest
  | _ => generate_call_id uuid_text
  end.

Definition has_hyphen (text : string) : bool :=
  existsb (fun c => Ascii.eqb c "-"%char) (list_ascii_of_string text).

Definition ends_with_slash (s : string) : Prop := exists p, s = (p ++ "/")%string.

(** Lines 198-202.  [closing] is what [self._ws.close()] gives; when it
    raises, the socket is taken to be as it was. *)
Definition close (closing : Res unit) : M Client unit :=
  c <- get ;;
  match ws c with
  | OpenSocket => await closing ;; set_ws ClosedSocket
  | _ => ret tt
  end.

(** What happens to a client over its life. *)
Inductive Op : Type :=
| Send (items : list ChatItem) (env : SendEnv)   (* a chat turn's _send_request *)
| Close (closing : Res unit)                     (* close() *)
| Dropped.                                       (* the peer closes the socket *)

Definition apply_op (c : Client) (op : Op) : Client :=
  match op with
  | Send items env => snd (send_request items env c)
  | Close closing => snd (close closing c)
  | Dropped =>
      match ws c with
      | OpenSocket => mkClient ClosedSocket (response_id_counter c) (wire c)
      | _ => c
      end
  end.

Definition life (ops : list Op) (c : Client) : Client := fold_left apply_op ops c.

Definition connections (w : list WireEvent) : nat :=
  List.length (filter (fun e => match e with Connected => true | _ => false end) w).

(** A chunk of the stream, [WebSocketLLMStream.__anext__], lines 281-291.
    Its id, drawn from [uuid4], is left out. *)
Record StreamChunk : Type := mkStreamChunk {
  delta_content : string;
  delta_role : string
}.

(** A whole chat turn: [__aenter__] sends, the consumer then drains the
    stream.  An exception of the send ends the turn before any stream
    exists. *)
Definition chat_turn (items : list ChatItem) (env : SendEnv) (inbound : list Inbound)
  : M Client (list StreamChunk * Outcome) :=
  response_id <- send_request items env ;;
  let '(deltas, outcome) := receive_response response_id inbound in
  ret (map (fun d => mkStreamChunk d "assistant") deltas, outcome).

(** A frame that answers request [id]. *)
Definition answers (id : Z) (f : Inbound) : Prop :=
  exists content complete, f = response_frame id content complete.

End SocketClient.

(** ** Python text by code points *)

Module PyText.

Local Open Scope N_scope.

(** A [str] as the list of its code points, which is what slicing,
    [strip], [startswith] and [in] work on. *)
Definition str : Type := list N.

(** An ASCII literal of the source as a [str]. *)
Definition lit (s : string) : str := map N_of_ascii (list_ascii_of_string s).

(** The characters [str.strip()] removes: those for which [str.isspace]
    holds. *)
Definition isspace (c : N) : bool :=
  ((9 <=? c) && (c <=? 13)) || ((28 <=? c) && (c <=? 32))
  || (c =? 133) || (c =? 160) || (c =? 5760)
  || ((8192 <=? c) && (c <=? 8202))
  || (c =? 8232) || (c =? 8233) || (c =? 8239) || (c =? 8287) || (c =? 12288).

Fixpoint lstrip (s : str) : str :=
  match s with
  | [] => []
  | c :: rest => if isspace c then lstrip rest else s
  end.

Definition rstrip (s : str) : str := rev (lstrip (rev s)).

Definition strip (s : str) : str := rstrip (lstrip s).

(** [s.startswith(p)]. *)
Fixpoint starts_with (p s : str) : bool :=
  match p, s with
  | [], _ => true
  | a :: p', b :: s' => (a =? b) && starts_with p' s'
  | _ :: _, [] => false
  end.

(** [s.endswith(p)]. *)
Definition ends_with (p s : str) : bool := starts_with (rev p) (rev s).

(** [p in s]. *)
Fixpoint contains (p s : str) : bool :=
  starts_with p s
  || match s with
     | [] => false
     | _ :: rest => contains p rest
     end.

(** [sep.join(parts)]. *)
Fixpoint join (sep : str) (parts : list str) : str :=
  match parts with
  | [] => []
  | [x] => x
  | x :: rest => (x ++ sep ++ join sep rest)%list
  end.

(** A text that does not begin with a space character. *)
Definition starts_clean (s : str) : Prop :=
  match s with [] => True | c :: _ => isspace c = false end.

(** A text that neither begins nor ends with a space character. *)
Definition trimmed (s : str) : Prop := starts_clean s /\ starts_clean (rev s).

End PyText.

(** ** Messages for the hosted provider ([custom_groq_llm.py], lines 230-301) *)

Module GroqMessages.

Import PyText.

(** An entry of a list-valued [msg.content], by the branch of lines
    259-264 it takes and the text that branch appends. *)
Inductive Part : Type :=
| PartStr (s : str)        (* isinstance(item, str) *)
| PartText (text : str)    (* hasattr(item, 'text'): str(item.text) *)
| PartOther (repr : str).  (* str(item) *)

Inductive Content : Type :=
| ContentStr (s : str)              (* isinstance(msg.content, str) *)
| ContentList (items : list Part)   (* isinstance(msg.content, list) *)
| ContentOther (repr : str).        (* str(msg.content) *)

(** An entry of [lk_messages], by the branch of the loop it takes. *)
Inductive Message : Type :=
| ChatMessage (role_lower : str) (content : Content)
    (* has role and content; role_lower is str(msg.role).lower() *)
| DictMessage (role : option str) (content : option str)
    (* a dict: its "role", and str() of its "content", where present *)
| OtherMessage (repr : str)         (* anything else: str(msg) *)
| Unreadable.                       (* handling it raises an Exception *)

Record GroqMessage : Type := mkGroqMessage {
  role : str;
  content : str
}.

(** Lines 242-249. *)
Definition normal_role (role_str : str) : str :=
  if contains (lit "user") role_str then lit "user"
  else if contains (lit "assistant") role_str then lit "assistant"
  else if contains (lit "system") role_str then lit "system"
  else lit "user".

Definition part_text (item : Part) : str :=
  match item with
  | PartStr s => s
  | PartText text => text
  | PartOther repr => repr
  end.

(** Lines 252-267. *)
Definition flat_content (c : Content) : str :=
  match c with
  | ContentStr s => s
  | ContentList items => join (lit " ") (map part_text items)
  | ContentOther repr => repr
  end.

(** Lines 269-275, 280-285, 289-294: strip, and keep what is not empty. *)
Definition keep (role content : str) : list GroqMessage :=
  match strip content with
  | [] => []
  | c :: rest => [mkGroqMessage role (c :: rest)]
  end.

(** One round of the loop. *)
Definition convert_message (msg : Message) : list GroqMessage :=
  match msg with
  | ChatMessage role_lower content => keep (normal_role role_lower) (flat_content content)
  | DictMessage role content =>
      keep (match role with Some r => r | None => lit "user" end)
           (match content with Some c => c | None => [] end)
  | OtherMessage repr => keep (lit "user") repr
  | Unreadable => []
  end.

Definition convert_messages (lk_messages : list Message) : list GroqMessage :=
  flat_map convert_message lk_messages.

(** A converted message handed in again, as the dict it is. *)
Definition as_dict (m : GroqMessage) : Message :=
  DictMessage (Some (role m)) (Some (content m)).

Definition is_dict (msg : Message) : bool :=
  match msg with DictMessage _ _ => true | _ => false end.

End GroqMessages.

(** ** Unwrapping the model's reply ([agent_class.py], lines 143-148) *)

Module ReplyCleaning.

Import PyText.

Definition fence_open : str := lit "```json".
Definition fence_close : str := lit "```".

(** [content[7:]], [content[:-3]] and [content.strip()], in that order. *)
Definition clean_reply (content : str) : str :=
  let content := if starts_with fence_open content then skipn 7%nat content else content in
  let content :=
    if ends_with fence_close content
    then firstn (List.length content - 3)%nat content
    else content in
  strip content.

End ReplyCleaning.

(** * Properties *)

(** ** Call termination *)

Section CallTerminatorFacts.

Import CallTerminator.

Lemma record_call_end_enter_guarded (end_reason : string) (w : World) :
  guarded w = true -> record_call_end_enter end_reason w = (Val None, w).
Proof.
  unfold record_call_end_enter, bind, get. intros G. rewrite G. reflexivity.
Qed.

Lemma record_call_end_enter_fresh (end_reason : string) (w : World) :
  guarded w = false ->
  record_call_end_enter end_reason w =
    (Val (Some (room_name (call_state w), end_reason)),
     mkWorld (mkCallState (call_started (call_state w)) true (room_name (call_state w)))
             (trace w ++ [InsertCallEnd (room_name (call_state w)) end_reason])).
Proof.
  unfold record_call_end_enter, bind, get. intros G. rewrite G. reflexivity.
Qed.

Lemma record_call_end_guarded (end_reason : string) (io : Res string) (w : World) :
  guarded w = true -> record_call_end end_reason io w = (Val tt, w).
Proof.
  intros G. unfold record_call_end, bind.
  rewrite (record_call_end_enter_guarded end_reason w G). reflexivity.
Qed.

(** The resumed half only logs: it leaves the CallState alone and issues no
    insert. *)
Lemma record_call_end_resume_spec (end_reason : string) (io : Res string) (w : World) :
  call_state (snd (record_call_end_resume end_reason io w)) = call_state w
  /\ filter is_insert (trace (snd (record_call_end_resume end_reason io w)))
     = filter is_insert (trace w)
  /\ filter is_hangup (trace (snd (record_call_end_resume end_reason io w)))
     = filter is_hangup (trace w).
Proof.
  destruct io as [operation_id | [cls msg | ]]; cbn;
    rewrite ?filter_app; cbn; rewrite ?app_nil_r; auto.
Qed.

Lemma record_call_end_then_guarded (end_reason : string) (io : Res string) (w : World) :
  guarded (snd (record_call_end end_reason io w)) = true.
Proof.
  destruct (guarded w) eqn:G.
  - rewrite (record_call_end_guarded _ _ _ G). exact G.
  - unfold record_call_end, bind. rewrite (record_call_end_enter_fresh _ _ G).
    unfold guarded.
    rewrite (proj1 (record_call_end_resume_spec end_reason io _)). reflexivity.
Qed.

Lemma closing_spec (current_language : string) (env : EndCallEnv) (w : World) :
  call_state (snd (closing current_language env w)) = call_state w
  /\ filter is_insert (trace (snd (closing current_language env w)))
     = filter is_insert (trace w)
  /\ (fst (closing current_language env w) = Val "Noted" ->
      exists pre,
        trace (snd (closing current_language env w))
        = (trace w ++ pre ++ [Say (end_call_msg current_language); Hangup])%list).
Proof.
  destruct env as [ins [[ [] | e1 ] | ] [ [] | e2 ]]; cbn;
    repeat rewrite filter_app; cbn; rewrite ?app_nil_r;
    repeat split; auto; try discriminate; intros _.
  - exists [WaitForPlayout]. repeat rewrite <- app_assoc. reflexivity.
  - exists []. repeat rewrite <- app_assoc. reflexivity.
Qed.

Lemma end_call_unfold (participant : option string) (current_language : string)
    (env : EndCallEnv) (w : World) :
  end_call participant current_language env w =
  match record_call_end "Call ended" (insert_result env)
          (mkWorld (call_state w)
             (trace w ++ [LogInfo ("Agent initiated call end for " ++
                 match participant with Some i => i | None => "unknown" end)]))
  with
  | (Val _, w') => closing current_language env w'
  | (Raised e, w') => (Raised e, w')
  end.
Proof.
  unfold end_call, bind at 1, emit at 1, modify. cbn.
  unfold bind at 1.
  destruct (record_call_end _ _ _) as [[[] | e] w']; reflexivity.
Qed.

Lemma end_call_then_guarded (participant : option string) (current_language : string)
    (env : EndCallEnv) (w : World) :
  guarded (snd (end_call participant current_language env w)) = true.
Proof.
  rewrite end_call_unfold.
  match goal with |- context [record_call_end ?r ?io ?w0] =>
    pose proof (record_call_end_then_guarded r io w0) as G;
    destruct (record_call_end r io w0) as [[[] | e] w'] end; cbn in G |- *.
  - unfold guarded in *.
    rewrite (proj1 (closing_spec current_language env w')). exact G.
  - exact G.
Qed.

Lemma end_call_spec (participant : option string) (current_language : string)
    (env : EndCallEnv) (w : World) :
  guarded w = true ->
  call_state (snd (end_call participant current_language env w)) = call_state w
  /\ filter is_insert (trace (snd (end_call participant current_language env w)))
     = filter is_insert (trace w)
  /\ (fst (end_call participant current_language env w) = Val "Noted" ->
      exists pre,
        trace (snd (end_call participant current_language env w))
        = (trace w ++ pre ++ [Say (end_call_msg current_language); Hangup])%list).
Proof.
  intros G. rewrite end_call_unfold.
  rewrite record_call_end_guarded by exact G.
  destruct (closing_spec current_language env
              (mkWorld (call_state w)
                 (trace w ++ [LogInfo ("Agent initiated call end for " ++
                    match participant with Some i => i | None => "unknown" end)])))
    as (Hcs & Hins & Hsay).
  cbn [call_state trace] in Hcs, Hins, Hsay.
  split; [exact Hcs |]. split.
  - rewrite Hins, filter_app. cbn. apply app_nil_r.
  - intros Hr. destruct (Hsay Hr) as [pre Hpre].
    exists (LogInfo ("Agent initiated call end for " ++
              match participant with Some i => i | None => "unknown" end) :: pre).
    rewrite Hpre, <- app_assoc. reflexivity.
Qed.

(** C1, as the code has it.  After a first [end_call] the guard of
    [record_call_end] holds, so in a second [end_call] on the same CallState
    [record_call_end] returns at once: the CallState is left as it is and no
    further [insert_call_end_async] is issued.  The closing line and
    [hangup()] are not behind the guard: a second [end_call] that returns
    has spoken and hung up again. *)
Theorem C1_second_end_call_records_nothing
    (w0 : World) (p1 p2 : option string) (l1 l2 : string) (e1 e2 : EndCallEnv) :
  let w1 := snd (end_call p1 l1 e1 w0) in
  let r2 := fst (end_call p2 l2 e2 w1) in
  let w2 := snd (end_call p2 l2 e2 w1) in
  (forall end_reason io, record_call_end end_reason io w1 = (Val tt, w1))
  /\ call_state w2 = call_state w1
  /\ filter is_insert (trace w2) = filter is_insert (trace w1)
  /\ (r2 = Val "Noted" ->
      exists pre, trace w2 = (trace w1 ++ pre ++ [Say (end_call_msg l2); Hangup])%list).
Proof.
  intros w1 r2 w2.
  assert (G : guarded w1 = true) by apply end_call_then_guarded.
  split.
  - intros end_reason io. apply record_call_end_guarded, G.
  - apply end_call_spec, G.
Qed.

(** C1 as stated fails: on a started call whose collaborators all succeed,
    the first [end_call] records and hangs up once, and the second one,
    although the end is already recorded, hangs up a second time. *)
Lemma C1_second_end_call_hangs_up_again :
  let w0 := mkWorld (mkCallState true false "room-1") [] in
  let env := mkEndCallEnv (Val "op-1") None (Val tt) in
  let w1 := snd (end_call None "English" env w0) in
  let w2 := snd (end_call None "English" env w1) in
  call_end_recorded (call_state w1) = true
  /\ count is_insert (trace w1) = 1%nat
  /\ count is_hangup (trace w1) = 1%nat
  /\ count is_insert (trace w2) = 1%nat
  /\ count is_hangup (trace w2) = 2%nat.
Proof. vm_compute. repeat split. Qed.

(** *** The flag under interleaved callers *)

Lemma step_recorded (s : Sys) (a : Action) :
  recorded s = true -> recorded (step s a) = true.
Proof.
  unfold recorded. intros R. destruct a as [end_reason | k io]; cbn [step].
  - rewrite record_call_end_enter_guarded by (unfold guarded; rewrite R; reflexivity).
    exact R.
  - destruct (nth_error (suspended s) k) as [end_reason |]; [| exact R].
    cbn. rewrite (proj1 (record_call_end_resume_spec end_reason io (world s))).
    exact R.
Qed.

Lemma edges_once_recorded (acts : list Action) : forall s : Sys,
  recorded s = true ->
  rising_edges true (flags_along s acts) = 0%nat
  /\ falling_edges true (flags_along s acts) = 0%nat.
Proof.
  induction acts as [| a acts IH]; intros s R; cbn; [auto |].
  rewrite (step_recorded s a R). cbn. apply IH, step_recorded, R.
Qed.

Lemma edges_bound (acts : list Action) : forall s : Sys,
  (rising_edges (recorded s) (flags_along s acts) <= 1)%nat
  /\ falling_edges (recorded s) (flags_along s acts) = 0%nat.
Proof.
  induction acts as [| a acts IH]; intros s; cbn; [auto |].
  destruct (recorded s) eqn:R.
  - rewrite (step_recorded s a R). cbn.
    destruct (edges_once_recorded acts (step s a) (step_recorded s a R)) as [-> ->].
    auto.
  - cbn. destruct (recorded (step s a)) eqn:R'.
    + destruct (edges_once_recorded acts (step s a) R') as [-> ->]. auto.
    + specialize (IH (step s a)). rewrite R' in IH. exact IH.
Qed.

Lemma step_budget (s : Sys) (a : Action) : (budget (step s a) <= budget s)%nat.
Proof.
  unfold budget, recorded, count. destruct a as [end_reason | k io]; cbn [step].
  - destruct (guarded (world s)) eqn:G.
    + rewrite record_call_end_enter_guarded by exact G. cbn. lia.
    + rewrite record_call_end_enter_fresh by exact G. cbn.
      rewrite filter_app, length_app. cbn.
      unfold guarded in G. apply orb_false_elim in G. destruct G as [-> _]. lia.
  - destruct (nth_error (suspended s) k) as [end_reason |]; [| lia].
    cbn [world].
    destruct (record_call_end_resume_spec end_reason io (world s)) as (-> & -> & _).
    lia.
Qed.

Lemma run_budget (acts : list Action) : forall s : Sys,
  (budget (run s acts) <= budget s)%nat.
Proof.
  unfold run. induction acts as [| a acts IH]; intros s; cbn; [lia |].
  specialize (IH (step s a)). pose proof (step_budget s a). lia.
Qed.

(** C2.  Along every interleaving of calls of [record_call_end] on one
    CallState, [call_end_recorded] rises at most once and never falls, and
    at most one [insert_call_end_async] is issued while the flag was down at
    the start.  A call that reaches its [await] has set the flag already and
    has just issued its insert.  When the awaited insert raises an
    [Exception], the call logs the error and returns normally with the
    CallState untouched. *)
Theorem C2_call_end_recorded_rises_once (s : Sys) (acts : list Action) :
  (rising_edges (recorded s) (flags_along s acts) <= 1)%nat
  /\ falling_edges (recorded s) (flags_along s acts) = 0%nat
  /\ (count is_insert (trace (world (run s acts)))
      <= count is_insert (trace (world s)) + if recorded s then 0 else 1)%nat
  /\ (forall end_reason p w',
        record_call_end_enter end_reason (world s) = (Val (Some p), w') ->
        call_end_recorded (call_state (world s)) = false
        /\ call_end_recorded (call_state w') = true
        /\ trace w' = (trace (world s)
                       ++ [InsertCallEnd (room_name (call_state (world s))) end_reason])%list)
  /\ (forall end_reason cls msg,
        record_call_end_resume end_reason (Raised (PyException cls msg)) (world s)
        = (Val tt,
           mkWorld (call_state (world s))
                   (trace (world s)
                    ++ [LogError ("Failed to queue call end recording: " ++ msg)]))).
Proof.
  destruct (edges_bound acts s) as [Hr Hf].
  split; [exact Hr |]. split; [exact Hf |]. split; [| split].
  - pose proof (run_budget acts s) as B. unfold budget in B.
    destruct (recorded (run s acts)); lia.
  - intros end_reason p w' E. destruct (guarded (world s)) eqn:G.
    + rewrite record_call_end_enter_guarded in E by exact G. discriminate.
    + rewrite record_call_end_enter_fresh in E by exact G.
      injection E as _ <-. cbn.
      unfold guarded in G. apply orb_false_elim in G. tauto.
  - reflexivity.
Qed.

End CallTerminatorFacts.

(** ** The idle watchdog *)

Section IdleWatchdogFacts.

Import IdleWatchdog.
Local Open Scope Z_scope.

Lemma on_conversation_item_trace_free (ev : Event) (t : Timers) :
  role ev <> "assistant" ->
  last_agent_finish_time (on_conversation_item ev t) = last_agent_finish_time t.
Proof.
  intros H. unfold on_conversation_item.
  destruct (String.eqb (role ev) "user"); [reflexivity |].
  destruct (String.eqb_spec (role ev) "assistant"); [contradiction | reflexivity].
Qed.

Lemma deliver_keeps_anchor (evs : list Event) : forall t : Timers,
  no_assistant evs ->
  last_agent_finish_time (fold_left (fun t ev => on_conversation_item ev t) evs t)
  = last_agent_finish_time t.
Proof.
  induction evs as [| ev evs IH]; intros t H; cbn; [reflexivity |].
  inversion H as [| ? ? Hev Hevs]; subst.
  rewrite IH by exact Hevs. apply on_conversation_item_trace_free, Hev.
Qed.

(** Suspending keeps the trace; it may move the timers. *)
Lemma suspend_spec (a : Await) (w : World) :
  suspend a w =
  (wake a,
   mkWorld (fold_left (fun t ev => on_conversation_item ev t) (delivered a) (timers w))
           (trace w)).
Proof. reflexivity. Qed.

(** An iteration that finds the anchor unset does nothing. *)
Lemma iteration_unanchored (idle warning : Z) (env : TickEnv) (w : World) :
  last_agent_finish_time (timers w) = None ->
  no_assistant (delivered (sleep_tick env)) ->
  trace (snd (iteration idle warning env w)) = trace w
  /\ last_agent_finish_time (timers (snd (iteration idle warning env w))) = None.
Proof.
  intros A H.
  pose proof (deliver_keeps_anchor (delivered (sleep_tick env)) (timers w) H) as K.
  rewrite A in K.
  destruct (iteration idle warning env w) as [r w'] eqn:E. cbn [snd].
  unfold iteration in E.
  destruct (started_at_head env); cbn [negb] in E.
  - unfold bind at 1 in E. rewrite suspend_spec in E.
    destruct (wake (sleep_tick env)) as [[] | e].
    + unfold bind, get in E. cbn [timers] in E. rewrite K in E.
      injection E as _ <-. cbn. auto.
    + injection E as _ <-. cbn. auto.
  - injection E as _ <-. auto.
Qed.

Lemma watch_unanchored (idle warning : Z) (envs : list TickEnv) : forall w : World,
  last_agent_finish_time (timers w) = None ->
  Forall (fun env => no_assistant (delivered (sleep_tick env))) envs ->
  trace (snd (watch idle warning envs w)) = trace w
  /\ last_agent_finish_time (timers (snd (watch idle warning envs w))) = None.
Proof.
  induction envs as [| env envs IH]; intros w A H; cbn; [auto |].
  inversion H as [| ? ? Henv Henvs]; subst.
  destruct (iteration_unanchored idle warning env w A Henv) as [Ht Ha].
  destruct (iteration idle warning env w) as [[[] | [cls msg | ]] w']; cbn in Ht, Ha |- *; auto.
  destruct (IH w' Ha Henvs) as [Ht' Ha']. rewrite Ht', Ht. auto.
Qed.

(** C6.  As long as no assistant turn is delivered, the watcher issues no
    effect at all, neither a spoken line nor a hang-up, and
    [last_agent_finish_time] stays unset, whatever the thresholds, the clock
    and the other turn events are. *)
Theorem C6_silent_before_first_assistant_turn
    (idle_timeout warning_timeout now : Z) (envs : list TickEnv) :
  Forall (fun env => no_assistant (delivered (sleep_tick env))) envs ->
  trace (snd (idle_call_watcher idle_timeout warning_timeout now envs)) = []
  /\ last_agent_finish_time
       (timers (snd (idle_call_watcher idle_timeout warning_timeout now envs))) = None.
Proof.
  intros H. unfold idle_call_watcher.
  apply (watch_unanchored idle_timeout warning_timeout envs
           (mkWorld (mkTimers None now false) []) eq_refl H).
Qed.

(** Thirty polling ticks during which the user speaks twice and something
    with another role is added once. *)
Lemma C6_silent_before_first_assistant_turn_witness :
  let busy :=
    mkTickEnv true
      (mkAwait [mkEvent "user" 5; mkEvent "system" 6; mkEvent "user" 7] (Val tt))
      20000000 true quiet 20000000 true quiet quiet in
  let envs := (busy :: ticks_after 20000000 30)%list in
  Forall (fun env => no_assistant (delivered (sleep_tick env))) envs
  /\ trace (snd (idle_call_watcher 15 10 0 envs)) = []
  /\ last_agent_finish_time (timers (snd (idle_call_watcher 15 10 0 envs))) = None.
Proof.
  assert (H : Forall (fun env => no_assistant (delivered (sleep_tick env)))
                (mkTickEnv true
                   (mkAwait [mkEvent "user" 5; mkEvent "system" 6; mkEvent "user" 7] (Val tt))
                   20000000 true quiet 20000000 true quiet quiet
                 :: ticks_after 20000000 30)).
  { repeat constructor; cbn; discriminate. }
  split; [exact H |].
  exact (C6_silent_before_first_assistant_turn 15 10 0 _ H).
Defined.

(** *** A user turn after the anchor *)

Lemma on_conversation_item_paused (a : Z) (ev : Event) (t : Timers) :
  role ev <> "assistant" -> a < clock ev ->
  paused a t -> paused a (on_conversation_item ev t).
Proof.
  intros Hr Hc (Ha & Hu & Hw). unfold on_conversation_item, paused.
  destruct (String.eqb (role ev) "user"); cbn; [auto |].
  destruct (String.eqb_spec (role ev) "assistant"); [contradiction | auto].
Qed.

Lemma deliver_paused (a : Z) (evs : list Event) : forall t : Timers,
  later_turns a evs -> paused a t ->
  paused a (fold_left (fun t ev => on_conversation_item ev t) evs t).
Proof.
  induction evs as [| ev evs IH]; intros t H P; cbn; [exact P |].
  inversion H as [| ? ? [Hr Hc] Hevs]; subst.
  apply IH; [exact Hevs |]. apply on_conversation_item_paused; assumption.
Qed.

Lemma iteration_paused (idle warning a : Z) (env : TickEnv) (w : World) :
  paused a (timers w) ->
  later_turns a (delivered (sleep_tick env)) ->
  trace (snd (iteration idle warning env w)) = trace w
  /\ paused a (timers (snd (iteration idle warning env w))).
Proof.
  intros P H.
  pose proof (deliver_paused a (delivered (sleep_tick env)) (timers w) H P) as K.
  destruct (iteration idle warning env w) as [r w'] eqn:E. cbn [snd].
  unfold iteration in E.
  destruct (started_at_head env); cbn [negb] in E.
  - unfold bind at 1 in E. rewrite suspend_spec in E.
    destruct (wake (sleep_tick env)) as [[] | e].
    + unfold bind, get in E. cbn [timers] in E.
      destruct K as (Ka & Ku & Kw). rewrite Ka in E.
      apply Z.gtb_lt in Ku. rewrite Ku in E.
      injection E as _ <-. cbn. apply Z.gtb_lt in Ku. unfold paused. auto.
    + injection E as _ <-. cbn. auto.
  - injection E as _ <-. auto.
Qed.

Lemma watch_paused (idle warning a : Z) (envs : list TickEnv) : forall w : World,
  paused a (timers w) ->
  Forall (fun env => later_turns a (delivered (sleep_tick env))) envs ->
  trace (snd (watch idle warning envs w)) = trace w
  /\ paused a (timers (snd (watch idle warning envs w))).
Proof.
  induction envs as [| env envs IH]; intros w P H; cbn; [auto |].
  inversion H as [| ? ? Henv Henvs]; subst.
  destruct (iteration_paused idle warning a env w P Henv) as [Ht Hp].
  destruct (iteration idle warning env w) as [[[] | [cls msg | ]] w']; cbn in Ht, Hp |- *; auto.
  destruct (IH w' Hp Henvs) as [Ht' Hp']. rewrite Ht', Ht. auto.
Qed.

(** C7.  A user turn whose clock reading is after the current anchor clears
    [warning_sent], and from then on, for as long as the turn events that
    arrive are not assistant turns, no iteration of the loop issues any
    effect: no warning is spoken, nothing is hung up, and the anchor and the
    cleared [warning_sent] stay as they are. *)
Theorem C7_user_turn_pauses_the_countdown
    (idle_timeout warning_timeout a tu : Z) (w : World) (envs : list TickEnv) :
  last_agent_finish_time (timers w) = Some a ->
  a < tu ->
  Forall (fun env => later_turns a (delivered (sleep_tick env))) envs ->
  warning_sent (timers (user_turn tu w)) = false
  /\ trace (snd (watch idle_timeout warning_timeout envs (user_turn tu w))) = trace w
  /\ paused a (timers (snd (watch idle_timeout warning_timeout envs (user_turn tu w)))).
Proof.
  intros A Hlt H.
  assert (P : paused a (timers (user_turn tu w))).
  { unfold user_turn, on_conversation_item, paused. cbn. auto. }
  split; [apply P |].
  apply (watch_paused idle_timeout warning_timeout a envs (user_turn tu w) P H).
Qed.

(** The assistant finished at t = 0 and a warning was already sent; the user
    speaks at t = 5 s and again at t = 40 s; sixty silent ticks follow. *)
Lemma C7_user_turn_pauses_the_countdown_witness :
  let w := mkWorld (mkTimers (Some 0) 0 true) [] in
  let again :=
    mkTickEnv true (mkAwait [mkEvent "user" 40000000] (Val tt))
      40000000 true quiet 40000000 true quiet quiet in
  let envs := (ticks_after 5000000 34 ++ again :: ticks_after 40000000 60)%list in
  last_agent_finish_time (timers w) = Some 0
  /\ 0 < 5000000
  /\ Forall (fun env => later_turns 0 (delivered (sleep_tick env))) envs
  /\ warning_sent (timers (user_turn 5000000 w)) = false
  /\ trace (snd (watch 15 10 envs (user_turn 5000000 w))) = trace w
  /\ paused 0 (timers (snd (watch 15 10 envs (user_turn 5000000 w)))).
Proof.
  assert (H : Forall (fun env => later_turns 0 (delivered (sleep_tick env)))
                (ticks_after 5000000 34
                 ++ mkTickEnv true (mkAwait [mkEvent "user" 40000000] (Val tt))
                      40000000 true quiet 40000000 true quiet quiet
                 :: ticks_after 40000000 60)).
  { repeat constructor; cbn; discriminate. }
  split; [reflexivity |]. split; [reflexivity |]. split; [exact H |].
  exact (C7_user_turn_pauses_the_countdown 15 10 0 5000000
           (mkWorld (mkTimers (Some 0) 0 true) []) _ eq_refl eq_refl H).
Defined.

(** *** Silence after an assistant turn *)

(** One silent iteration at clock reading [t], in closed form. *)
Lemma silent_iteration (idle warning t A u : Z) (ws : bool) (tr : list (Z * Effect)) :
  u <= A ->
  iteration idle warning (silent_tick t) (mkWorld (mkTimers (Some A) u ws) tr) =
  let warn := (t - A >? seconds warning) && negb ws in
  let tm := if warn then mkTimers (Some t) u true else mkTimers (Some A) u ws in
  let tr' := if warn then (tr ++ [(t, Say warning_text)])%list else tr in
  if t - A >? seconds idle
  then (Val Break,
        mkWorld tm (tr' ++ [(t, Say closing_text); (t, Pause 2); (t, Hangup)])%list)
  else (Val Continue, mkWorld tm tr').
Proof.
  intros Hu.
  assert (G : (u >? A) = false).
  { destruct (Z.gtb_spec u A); [lia | reflexivity]. }
  unfold iteration, silent_tick. cbn [started_at_head negb sleep_tick now_after_sleep].
  unfold bind at 1. rewrite suspend_spec. cbn [quiet delivered wake fold_left timers trace].
  unfold bind at 1, get. cbn [timers last_agent_finish_time last_user_activity].
  rewrite G. unfold warning_check, idle_check, bind at 1, get.
  cbn [timers warning_sent].
  destruct (t - A >? seconds warning), ws, (t - A >? seconds idle); cbn;
    repeat rewrite <- app_assoc; reflexivity.
Qed.

Lemma ticks_after_app (n m : nat) : forall T : Z,
  ticks_after T (n + m) =
  (ticks_after T n ++ ticks_after (T + seconds (Z.of_nat n)) m)%list.
Proof.
  induction n as [| n IH]; intros T.
  - cbn [Nat.add ticks_after app]. f_equal. unfold seconds. lia.
  - cbn [Nat.add ticks_after app]. rewrite IH. do 3 f_equal. unfold seconds. lia.
Qed.

(** Iterations that stay below both thresholds (or below the idle threshold,
    with the warning already sent) change nothing. *)
Lemma quiet_ticks (idle warning A u : Z) (ws : bool) (tr : list (Z * Effect))
    (rest : list TickEnv) (k : nat) : forall j0 : Z,
  u <= A -> 0 <= j0 ->
  j0 + Z.of_nat k <= idle ->
  (ws = true \/ j0 + Z.of_nat k <= warning) ->
  watch idle warning (ticks_after (A + seconds j0) k ++ rest)
        (mkWorld (mkTimers (Some A) u ws) tr)
  = watch idle warning rest (mkWorld (mkTimers (Some A) u ws) tr).
Proof.
  induction k as [| k IH]; intros j0 Hu Hj Hi Hw; [reflexivity |].
  cbn [ticks_after app watch].
  rewrite silent_iteration by exact Hu. cbv zeta.
  assert (E1 : (A + seconds j0 + seconds 1 - A >? seconds idle) = false).
  { unfold seconds. destruct (Z.gtb_spec (A + j0 * 1000000 + 1 * 1000000 - A) (idle * 1000000));
      [lia | reflexivity]. }
  assert (E2 : (A + seconds j0 + seconds 1 - A >? seconds warning) && negb ws = false).
  { destruct Hw as [-> | Hw]; [apply andb_false_r |].
    unfold seconds.
    destruct (Z.gtb_spec (A + j0 * 1000000 + 1 * 1000000 - A) (warning * 1000000));
      [lia | reflexivity]. }
  rewrite E1, E2.
  replace (A + seconds j0 + seconds 1) with (A + seconds (j0 + 1))
    by (unfold seconds; lia).
  apply IH; try lia. destruct Hw; [left; assumption | right; lia].
Qed.

Lemma on_conversation_item_keeps_user (ev : Event) (t : Timers) :
  role ev <> "user" ->
  last_user_activity (on_conversation_item ev t) = last_user_activity t.
Proof.
  intros H. unfold on_conversation_item.
  destruct (String.eqb_spec (role ev) "user"); [contradiction |].
  destruct (String.eqb (role ev) "assistant"); reflexivity.
Qed.

Lemma deliver_keeps_user (evs : list Event) : forall t : Timers,
  no_user evs ->
  last_user_activity (fold_left (fun t ev => on_conversation_item ev t) evs t)
  = last_user_activity t.
Proof.
  induction evs as [| ev evs IH]; intros t H; cbn; [reflexivity |].
  inversion H as [| ? ? Hev Hevs]; subst.
  rewrite IH by exact Hevs. apply on_conversation_item_keeps_user, Hev.
Qed.

(** A calm iteration up to the point where the thresholds are tested. *)
Lemma calm_iteration (idle warning A u : Z) (ws : bool) (tr : list (Z * Effect))
    (env : TickEnv) :
  calm env -> u <= A ->
  iteration idle warning env (mkWorld (mkTimers (Some A) u ws) tr)
  = (c <- warning_check warning env (now_after_sleep env - A) ;;
     match c with
     | Break => ret Break
     | Continue => idle_check idle env (now_after_sleep env - A)
     end) (mkWorld (mkTimers (Some A) u ws) tr).
Proof.
  intros (Hh & Hs & _) Hu.
  assert (G : (u >? A) = false).
  { destruct (Z.gtb_spec u A); [lia | reflexivity]. }
  unfold iteration. rewrite Hh, Hs. cbn [negb].
  unfold bind at 1. rewrite suspend_spec. cbn [quiet delivered wake fold_left timers trace].
  unfold bind at 1, get. cbn [timers last_agent_finish_time last_user_activity].
  rewrite G. reflexivity.
Qed.

Lemma warning_check_passes (warning : Z) (env : TickEnv) (elapsed : Z) (w : World) :
  (elapsed >? seconds warning) && negb (warning_sent (timers w)) = false ->
  warning_check warning env elapsed w = (Val Continue, w).
Proof.
  intros E. unfold warning_check, bind, get. rewrite E. reflexivity.
Qed.

Lemma idle_check_passes (idle : Z) (env : TickEnv) (elapsed : Z) (w : World) :
  (elapsed >? seconds idle) = false ->
  idle_check idle env elapsed w = (Val Continue, w).
Proof.
  intros E. unfold idle_check. rewrite E. reflexivity.
Qed.

(** The warning of a calm iteration: the line is spoken, [warning_sent] is
    raised and the anchor is set to the reading taken after the line. *)
Lemma warning_check_warns (warning A u : Z) (tr : list (Z * Effect)) (env : TickEnv)
    (elapsed : Z) :
  calm env ->
  (elapsed >? seconds warning) = true ->
  warning_check warning env elapsed (mkWorld (mkTimers (Some A) u false) tr)
  = (Val Continue,
     mkWorld (mkTimers (Some (now_after_warning env)) u true)
             (tr ++ [(now_after_sleep env, Say warning_text)])).
Proof.
  intros (_ & _ & Hsw & Hwk & Hnu & _) E.
  pose proof (deliver_keeps_user (delivered (say_warning env)) (mkTimers (Some A) u false) Hnu)
    as K. cbn [last_user_activity] in K.
  unfold warning_check, bind at 1, get. cbn [timers warning_sent negb].
  rewrite E, Hsw. cbn [andb].
  unfold try_except, bind, emit, suspend, deliver, await, set_warning_sent,
    set_last_agent_finish_time, modify, ret. rewrite Hwk.
  unfold bind. cbn [timers trace last_agent_finish_time last_user_activity warning_sent].
  rewrite K. reflexivity.
Qed.

(** The hang-up of a calm iteration. *)
Lemma idle_check_hangs_up (idle : Z) (env : TickEnv) (elapsed : Z) (w : World) :
  calm env ->
  (elapsed >? seconds idle) = true ->
  idle_check idle env elapsed w
  = (Val Break,
     mkWorld (timers w)
             (trace w ++ [(now_after_sleep env, Say closing_text);
                          (now_after_sleep env, Pause 2);
                          (now_after_sleep env, Hangup)])).
Proof.
  intros (_ & _ & _ & _ & _ & Hsh & Hsc & Hsl) E.
  unfold idle_check. rewrite E, Hsh, Hsc, Hsl.
  cbn. repeat rewrite <- app_assoc. reflexivity.
Qed.

(** Below the idle threshold, and below the warning threshold or with the
    warning already sent, a calm iteration changes nothing. *)
Lemma calm_iteration_waits (idle warning A u : Z) (ws : bool) (tr : list (Z * Effect))
    (env : TickEnv) :
  calm env -> u <= A ->
  now_after_sleep env - A <= seconds idle ->
  (ws = true \/ now_after_sleep env - A <= seconds warning) ->
  iteration idle warning env (mkWorld (mkTimers (Some A) u ws) tr)
  = (Val Continue, mkWorld (mkTimers (Some A) u ws) tr).
Proof.
  intros C Hu Hi Hw. rewrite calm_iteration by assumption.
  unfold bind. rewrite warning_check_passes.
  - apply idle_check_passes.
    destruct (Z.gtb_spec (now_after_sleep env - A) (seconds idle)); [lia | reflexivity].
  - cbn [timers warning_sent]. destruct Hw as [-> | Hw]; [apply andb_false_r |].
    destruct (Z.gtb_spec (now_after_sleep env - A) (seconds warning)); [lia | reflexivity].
Qed.

(** Above the warning threshold and not above the idle threshold, with no
    warning sent yet, a calm iteration speaks the warning and moves the
    anchor to the clock reading taken when the warning has been spoken. *)
Lemma calm_iteration_warns (idle warning A u : Z) (tr : list (Z * Effect))
    (env : TickEnv) :
  calm env -> u <= A ->
  seconds warning < now_after_sleep env - A <= seconds idle ->
  iteration idle warning env (mkWorld (mkTimers (Some A) u false) tr)
  = (Val Continue,
     mkWorld (mkTimers (Some (now_after_warning env)) u true)
             (tr ++ [(now_after_sleep env, Say warning_text)])).
Proof.
  intros C Hu [Hw Hi]. rewrite calm_iteration by assumption.
  unfold bind. rewrite (warning_check_warns warning A u tr env _ C) by (apply Z.gtb_lt; lia).
  apply idle_check_passes.
  destruct (Z.gtb_spec (now_after_sleep env - A) (seconds idle)); [lia | reflexivity].
Qed.

(** Above the idle threshold, with the warning sent, a calm iteration
    speaks the closing line, pauses, hangs up and leaves the loop. *)
Lemma calm_iteration_hangs_up (idle warning A u : Z) (tr : list (Z * Effect))
    (env : TickEnv) :
  calm env -> u <= A ->
  seconds idle < now_after_sleep env - A ->
  iteration idle warning env (mkWorld (mkTimers (Some A) u true) tr)
  = (Val Break,
     mkWorld (mkTimers (Some A) u true)
             (tr ++ [(now_after_sleep env, Say closing_text);
                     (now_after_sleep env, Pause 2);
                     (now_after_sleep env, Hangup)])).
Proof.
  intros C Hu Hi. rewrite calm_iteration by assumption.
  unfold bind. rewrite warning_check_passes by apply andb_false_r.
  rewrite (idle_check_hangs_up idle env _ _ C) by (apply Z.gtb_lt; lia).
  reflexivity.
Qed.

(** Calm iterations that wait are passed over. *)
Lemma calm_iterations_wait (idle warning A u : Z) (ws : bool) (tr : list (Z * Effect))
    (envs rest : list TickEnv) :
  Forall calm envs -> u <= A ->
  Forall (fun env => now_after_sleep env - A <= seconds idle) envs ->
  (ws = true \/ Forall (fun env => now_after_sleep env - A <= seconds warning) envs) ->
  watch idle warning (envs ++ rest) (mkWorld (mkTimers (Some A) u ws) tr)
  = watch idle warning rest (mkWorld (mkTimers (Some A) u ws) tr).
Proof.
  intros C Hu. induction C as [| env envs Cenv _ IH]; intros Hi Hw; [reflexivity |].
  inversion Hi as [| ? ? Hi1 Hi2]; subst.
  cbn [app watch]. rewrite calm_iteration_waits; try assumption.
  - apply IH; [exact Hi2 |]. destruct Hw as [Hw | Hw]; [left; exact Hw |].
    right. inversion Hw; assumption.
  - destruct Hw as [Hw | Hw]; [left; exact Hw |]. right. inversion Hw; assumption.
Qed.

(** C3, as the code has it.  An assistant turn ends at [T] and silence
    follows; the loop reads the clock whenever its sleep returns, at
    readings that are not constrained, save that the clock does not run
    backwards while the warning is spoken.  The readings that are not more than
    [warning_timeout] after [T] pass with nothing said.  At the first one
    that is more (and not yet more than [idle_timeout] after [T]) the one
    warning is spoken, and the anchor becomes the reading taken when the
    warning has been spoken, not the reading that triggered it.  From then
    on the readings that are not more than [idle_timeout] after that new
    anchor pass with nothing more said and the watcher running; at the
    first one that is more, the closing line is spoken, the loop pauses,
    hangs up and ends.  That reading is later than
    [T + warning_timeout + idle_timeout]. *)
Theorem C3_warning_then_hangup_after_silence
    (idle_timeout warning_timeout T : Z) (st : World)
    (before : list TickEnv) (warn : TickEnv) (between : list TickEnv)
    (last : TickEnv) (rest : list TickEnv) :
  0 <= warning_timeout ->
  last_user_activity (timers st) <= T ->
  Forall calm (before ++ warn :: between ++ [last]) ->
  Forall (fun env => now_after_sleep env - T <= seconds warning_timeout) before ->
  seconds warning_timeout < now_after_sleep warn - T <= seconds idle_timeout ->
  now_after_sleep warn <= now_after_warning warn ->
  Forall (fun env => now_after_sleep env - now_after_warning warn <= seconds idle_timeout)
         between ->
  seconds idle_timeout < now_after_sleep last - now_after_warning warn ->
  watch idle_timeout warning_timeout (before ++ warn :: between) (assistant_turn T st)
  = (Running,
     mkWorld (mkTimers (Some (now_after_warning warn)) (last_user_activity (timers st)) true)
             (trace st ++ [(now_after_sleep warn, Say warning_text)]))
  /\ watch idle_timeout warning_timeout (before ++ warn :: between ++ last :: rest)
           (assistant_turn T st)
     = (Exited,
        mkWorld (mkTimers (Some (now_after_warning warn)) (last_user_activity (timers st)) true)
                (trace st
                 ++ [(now_after_sleep warn, Say warning_text);
                     (now_after_sleep last, Say closing_text);
                     (now_after_sleep last, Pause 2);
                     (now_after_sleep last, Hangup)]))
  /\ T + seconds warning_timeout + seconds idle_timeout < now_after_sleep last.
Proof.
  intros H0 Hu C Hb Hw Hm Hbt Hl. destruct st as [[anchor0 u ws0] tr].
  cbn [timers last_user_activity trace] in *.
  apply Forall_app in C. destruct C as [Cb C].
  inversion C as [| ? ? Cw C']; subst. apply Forall_app in C'. destruct C' as [Cbt Cl].
  inversion Cl as [| ? ? Cl' _]; subst.
  assert (Hb' : Forall (fun env => now_after_sleep env - T <= seconds idle_timeout) before).
  { eapply Forall_impl; [| exact Hb]. cbn. intros env H. lia. }
  assert (S0 : assistant_turn T (mkWorld (mkTimers anchor0 u ws0) tr)
               = mkWorld (mkTimers (Some T) u false) tr) by reflexivity.
  assert (W : forall tail,
            watch idle_timeout warning_timeout (before ++ warn :: between ++ tail)
                  (assistant_turn T (mkWorld (mkTimers anchor0 u ws0) tr))
            = watch idle_timeout warning_timeout tail
                (mkWorld (mkTimers (Some (now_after_warning warn)) u true)
                         (tr ++ [(now_after_sleep warn, Say warning_text)]))).
  { intros tail. rewrite S0.
    rewrite calm_iterations_wait by auto.
    cbn [app watch]. rewrite calm_iteration_warns by auto.
    apply calm_iterations_wait; auto. unfold seconds in *. lia. }
  split; [| split].
  - rewrite <- (app_nil_r between). apply W.
  - rewrite W. cbn [watch].
    rewrite calm_iteration_hangs_up by (auto; unfold seconds in *; lia).
    rewrite <- app_assoc. reflexivity.
  - lia.
Qed.

(** Thresholds of 10 s and 15 s.  The assistant turn ends at t = 0.5 s; the
    sleeps of the loop return every 1.001 s; the warning is triggered at
    t = 11.011 s and has been spoken at t = 12.811 s, its own turn event
    delivered just before.  The call is hung up at t = 27.826 s, the first
    reading more than 15 s after 12.811 s; a count from 11.011 s would
    have ended at t = 26.825 s. *)
Lemma C3_warning_then_hangup_after_silence_witness :
  0 <= 10
  /\ last_user_activity (timers (mkWorld (mkTimers None 0 false) [])) <= 500000
  /\ seconds 10 < 11011000 - 500000 <= seconds 15
  /\ seconds 15 < 27826000 - 12811000
  /\ watch 15 10
       (ticks_every 1001000 0 10
        ++ mkTickEnv true quiet 11011000 true
             (mkAwait [mkEvent "assistant" 12800000] (Val tt)) 12811000 true quiet quiet
        :: ticks_every 1001000 12811000 14
        ++ silent_tick 27826000 :: [silent_tick 28827000])
       (assistant_turn 500000 (mkWorld (mkTimers None 0 false) []))
     = (Exited,
        mkWorld (mkTimers (Some 12811000) 0 true)
                [(11011000, Say warning_text);
                 (27826000, Say closing_text);
                 (27826000, Pause 2);
                 (27826000, Hangup)]).
Proof.
  assert (H1 : last_user_activity (timers (mkWorld (mkTimers None 0 false) [])) <= 500000)
    by (cbn; lia).
  assert (H2 : seconds 10 < 11011000 - 500000 <= seconds 15) by (unfold seconds; lia).
  assert (H3 : seconds 15 < 27826000 - 12811000) by (unfold seconds; lia).
  assert (H0 : 0 <= 10) by lia.
  split; [exact H0 |]. split; [exact H1 |]. split; [exact H2 |]. split; [exact H3 |].
  refine (proj1 (proj2 (C3_warning_then_hangup_after_silence 15 10 500000
            (mkWorld (mkTimers None 0 false) [])
            (ticks_every 1001000 0 10)
            (mkTickEnv true quiet 11011000 true
               (mkAwait [mkEvent "assistant" 12800000] (Val tt)) 12811000 true quiet quiet)
            (ticks_every 1001000 12811000 14)
            (silent_tick 27826000) [silent_tick 28827000]
            H0 H1 _ _ H2 _ _ H3))).
  - cbn [ticks_every app]. unfold calm, no_user.
    repeat (constructor; [cbn; repeat split; try reflexivity;
                          repeat constructor; discriminate |]).
    constructor.
  - cbn [ticks_every]. repeat (constructor; [cbn; unfold seconds; lia |]). constructor.
  - cbn. lia.
  - cbn [ticks_every]. repeat (constructor; [cbn; unfold seconds; lia |]). constructor.
Defined.

(** C3 as stated fails.  With the thresholds of 10 s and 15 s and the clock
    read every second after an assistant turn at t = 0, the reading at
    t = 10 s says nothing (the test is [elapsed > warning_timeout]); the
    warning comes with the reading at t = 11 s.  The readings at t = 25 s
    and t = 26 s leave the watcher running with nothing more said; the
    closing line and the hang-up come with the reading at t = 27 s. *)
Lemma C3_no_warning_at_10s_no_hangup_at_25s :
  let st := assistant_turn 0 (mkWorld (mkTimers None 0 false) []) in
  watch 15 10 (ticks_after 0 10) st
    = (Running, mkWorld (mkTimers (Some 0) 0 false) [])
  /\ watch 15 10 (ticks_after 0 11) st
     = (Running, mkWorld (mkTimers (Some 11000000) 0 true) [(11000000, Say warning_text)])
  /\ watch 15 10 (ticks_after 0 25) st
     = (Running, mkWorld (mkTimers (Some 11000000) 0 true) [(11000000, Say warning_text)])
  /\ watch 15 10 (ticks_after 0 26) st
     = (Running, mkWorld (mkTimers (Some 11000000) 0 true) [(11000000, Say warning_text)])
  /\ watch 15 10 (ticks_after 0 27) st
     = (Exited,
        mkWorld (mkTimers (Some 11000000) 0 true)
                [(11000000, Say warning_text);
                 (27000000, Say closing_text);
                 (27000000, Pause 2);
                 (27000000, Hangup)]).
Proof. vm_compute. repeat split. Qed.

(** Whatever the clock reads, an iteration that finds exactly
    [warning_timeout] seconds elapsed since the anchor speaks no warning. *)
Lemma no_warning_at_the_threshold (idle warning A u : Z) (ws : bool)
    (tr : list (Z * Effect)) :
  u <= A -> warning <= idle ->
  iteration idle warning (silent_tick (A + seconds warning))
            (mkWorld (mkTimers (Some A) u ws) tr)
  = (Val Continue, mkWorld (mkTimers (Some A) u ws) tr).
Proof.
  intros Hu Hwi. rewrite silent_iteration by exact Hu. cbv zeta.
  assert (E1 : (A + seconds warning - A >? seconds warning) = false).
  { destruct (Z.gtb_spec (A + seconds warning - A) (seconds warning)); [lia | reflexivity]. }
  assert (E2 : (A + seconds warning - A >? seconds idle) = false).
  { destruct (Z.gtb_spec (A + seconds warning - A) (seconds idle)); [| reflexivity].
    unfold seconds in *. lia. }
  rewrite E1, E2. reflexivity.
Qed.

(** The idle test of the iteration that speaks the warning still uses the
    elapsed time computed before the warning.  When the first reading after
    the assistant turn comes late, at t = 16 s, the warning and the closing
    line are spoken and the call is hung up in one and the same iteration. *)
Example late_reading_warns_and_hangs_up :
  watch 15 10 [silent_tick 16000000]
        (assistant_turn 0 (mkWorld (mkTimers None 0 false) []))
  = (Exited,
     mkWorld (mkTimers (Some 16000000) 0 true)
             [(16000000, Say warning_text);
              (16000000, Say closing_text);
              (16000000, Pause 2);
              (16000000, Hangup)]).
Proof. reflexivity. Qed.

(** A failing [session.say] ends the loop without an exception; a
    cancellation during the sleep leaves the watcher cancelled. *)
Example say_failure_stops_the_watcher :
  watch 15 10
    [mkTickEnv true quiet 11000000 true
       (mkAwait [] (Raised (PyException "RuntimeError" "AgentSession is closing")))
       11000000 true quiet quiet;
     silent_tick 12000000]
    (assistant_turn 0 (mkWorld (mkTimers None 0 false) []))
  = (Exited, mkWorld (mkTimers (Some 0) 0 false) [(11000000, Say warning_text)]).
Proof. reflexivity. Qed.

Example cancellation_during_sleep :
  watch 15 10
    [mkTickEnv true (mkAwait [] (Raised CancelledError))
       1000000 true quiet 1000000 true quiet quiet]
    (assistant_turn 0 (mkWorld (mkTimers None 0 false) []))
  = (Cancelled, mkWorld (mkTimers (Some 0) 0 false) []).
Proof. reflexivity. Qed.

End IdleWatchdogFacts.

(** ** The socket backend *)

Section SocketBackendFacts.

Import SocketBackend.
Local Open Scope Z_scope.

(** *** Sending *)

Lemma find_none_of_all_false {A} (f : A -> bool) (l : list A) :
  Forall (fun x => f x = false) l -> find f l = None.
Proof.
  induction 1 as [| x l Hx _ IH]; cbn; [reflexivity |]. rewrite Hx. exact IH.
Qed.

Lemma find_first {A} (f : A -> bool) (l : list A) (m : A) :
  find f l = Some m ->
  exists a b, l = (a ++ m :: b)%list /\ f m = true /\ Forall (fun x => f x = false) a.
Proof.
  induction l as [| x l IH]; cbn; [discriminate |].
  destruct (f x) eqn:Fx.
  - intros [= ->]. exists [], l. auto.
  - intros E. destruct (IH E) as (a & b & -> & Fm & Fa).
    exists (x :: a), b. auto.
Qed.

Lemma latest_user_message_none (items : list ChatItem) :
  Forall (fun m => is_user m = false) items -> latest_user_message items = None.
Proof.
  intros H. apply find_none_of_all_false, Forall_rev, H.
Qed.

(** The message found is the last user item of the context. *)
Lemma latest_user_message_last (items : list ChatItem) (m : ChatItem) :
  latest_user_message items = Some m ->
  exists before after,
    items = (before ++ m :: after)%list
    /\ is_user m = true
    /\ Forall (fun x => is_user x = false) after.
Proof.
  intros E. destruct (find_first _ _ _ E) as (a & b & R & Fm & Fa).
  exists (rev b), (rev a). split; [| split; [exact Fm | apply Forall_rev, Fa]].
  rewrite <- (rev_involutive items), R, rev_app_distr. cbn.
  rewrite <- app_assoc. reflexivity.
Qed.

(** Connecting transmits no request and leaves the counter alone. *)
Lemma ensure_connection_spec (env : SendEnv) (c : Client) :
  response_id_counter (snd (ensure_connection env c)) = response_id_counter c
  /\ transmitted_requests (wire (snd (ensure_connection env c))) = transmitted_requests (wire c).
Proof.
  assert (K : transmitted_requests (wire c ++ [Connected]) = transmitted_requests (wire c)).
  { unfold transmitted_requests. rewrite flat_map_app. cbn. apply app_nil_r. }
  destruct env as [[[] | e1] [[] | e2] [[] | e3] sr], c as [[ | | ] n w]; cbn in *; auto;
    try (destruct (connection_closed e2); cbn; auto);
    try (destruct (connection_closed e3); cbn; auto).
Qed.

(** [_send_request] in closed form, after the connection step. *)
Lemma send_request_unfold (items : list ChatItem) (env : SendEnv) (c : Client) :
  send_request items env c =
  match ensure_connection env c with
  | (Raised e, c1) => (Raised e, c1)
  | (Val _, c1) =>
      match latest_user_message items with
      | None => (Raised (PyException "ValueError" "No user message found"), c1)
      | Some m =>
          let id := response_id_counter c1 + 1 in
          let sent :=
            (wire c1 ++ [Transmitted (mkRequest "response_required" id
                                        [("user", extract_message_content m)])])%list in
          match send_result env with
          | Val _ => (Val id, mkClient (ws c1) id sent)
          | Raised e =>
              (Raised e,
               mkClient (if connection_closed e then ClosedSocket else ws c1) id sent)
          end
      end
  end.
Proof.
  unfold send_request, bind at 1.
  destruct (ensure_connection env c) as [[[] | e] c1]; [| reflexivity].
  destruct (latest_user_message items) as [m |]; [| reflexivity].
  destruct (send_result env) as [[] | e]; [reflexivity |].
  unfold on_socket. destruct (connection_closed e); reflexivity.
Qed.

Lemma transmitted_requests_snoc (w : list WireEvent) (r : Request) :
  transmitted_requests (w ++ [Transmitted r]) = (transmitted_requests w ++ [r])%list.
Proof. unfold transmitted_requests. rewrite flat_map_app. reflexivity. Qed.

Lemma transmitted_ids_requests (w : list WireEvent) :
  transmitted_ids w = map response_id (transmitted_requests w).
Proof.
  induction w as [| [ | r] w IH]; cbn; [reflexivity | exact IH | f_equal; exact IH].
Qed.

(** What one [_send_request] does to the counter and to the requests on the
    wire: either nothing is transmitted, or exactly one request, numbered one
    above the old counter and carrying the last user message alone. *)
Lemma send_request_spec (items : list ChatItem) (env : SendEnv) (c : Client) :
  let r := fst (send_request items env c) in
  let c' := snd (send_request items env c) in
  (transmitted_requests (wire c') = transmitted_requests (wire c)
   /\ response_id_counter c' = response_id_counter c
   /\ exists e, r = Raised e)
  \/ (exists before m after,
        items = (before ++ m :: after)%list
        /\ is_user m = true
        /\ Forall (fun x => is_user x = false) after
        /\ transmitted_requests (wire c')
           = (transmitted_requests (wire c)
              ++ [mkRequest "response_required" (response_id_counter c + 1)
                            [("user", extract_message_content m)]])%list
        /\ response_id_counter c' = response_id_counter c + 1
        /\ (r = Val (response_id_counter c + 1) \/ exists e, r = Raised e)).
Proof.
  cbv zeta. rewrite send_request_unfold.
  destruct (ensure_connection_spec env c) as [Hn Hw].
  destruct (ensure_connection env c) as [[[] | e] c1]; cbn [fst snd] in *.
  - destruct (latest_user_message items) as [m |] eqn:L.
    + right. destruct (latest_user_message_last items m L) as (before & after & -> & Um & Ua).
      exists before, m, after. rewrite <- Hn, <- Hw.
      destruct (send_result env) as [[] | e]; cbn;
        rewrite transmitted_requests_snoc; repeat split; eauto.
    + left. cbn. eauto.
  - left. eauto.
Qed.

Lemma strongly_sorted_snoc (l : list Z) (x : Z) :
  StronglySorted Z.lt l -> Forall (fun y => y < x) l -> StronglySorted Z.lt (l ++ [x]).
Proof.
  induction 1 as [| y l Hs IH Hy]; intros Hx; cbn.
  - repeat constructor.
  - inversion Hx as [| ? ? Hyx Hlx]; subst. constructor; [apply IH, Hlx |].
    apply Forall_app. split; [exact Hy | repeat constructor; exact Hyx].
Qed.

Lemma send_request_ordered (items : list ChatItem) (env : SendEnv) (c : Client) :
  wire_ordered c -> wire_ordered (snd (send_request items env c)).
Proof.
  intros [Hs Hb]. unfold wire_ordered.
  destruct (send_request_spec items env c)
    as [(Hw & Hn & _) | (before & m & after & _ & _ & _ & Hw & Hn & _)];
    rewrite !transmitted_ids_requests in *; rewrite Hw, Hn.
  - auto.
  - rewrite map_app. cbn [map response_id]. split.
    + apply strongly_sorted_snoc; [exact Hs |].
      eapply Forall_impl; [| exact Hb]. cbn. intros; lia.
    + apply Forall_app. split; [| repeat constructor; lia].
      eapply Forall_impl; [| exact Hb]. cbn. intros; lia.
Qed.

Lemma send_all_spec (calls : list (list ChatItem * SendEnv)) : forall c : Client,
  wire_ordered c ->
  wire_ordered (snd (send_all calls c))
  /\ response_id_counter c <= response_id_counter (snd (send_all calls c))
  /\ StronglySorted Z.lt (successes (fst (send_all calls c)))
  /\ Forall (fun id => response_id_counter c < id) (successes (fst (send_all calls c))).
Proof.
  induction calls as [| [items env] calls IH]; intros c Hc; cbn [send_all].
  - cbn. repeat split; try constructor; try apply Hc. lia.
  - pose proof (send_request_ordered items env c Hc) as Hc1.
    pose proof (send_request_spec items env c) as Hspec. cbv zeta in Hspec.
    destruct (send_request items env c) as [r c1]. cbn [fst snd] in *.
    destruct (IH c1 Hc1) as (Ho & Hle & Hs & Hgt).
    destruct (send_all calls c1) as [rs c2]. cbn [fst snd] in *.
    split; [exact Ho |].
    assert (Hn : response_id_counter c <= response_id_counter c1
                 /\ (forall id, r = Val id -> id = response_id_counter c1
                                /\ response_id_counter c < id)).
    { destruct Hspec as [(_ & Hn & e & ->) | (_ & _ & _ & _ & _ & _ & _ & Hn & [-> | [e ->]])];
        rewrite Hn; split; try lia; try discriminate.
      intros id [= <-]. lia. }
    destruct Hn as [Hn Hid]. split; [lia |].
    destruct r as [id | e]; cbn [successes].
    + destruct (Hid id eq_refl) as [-> Hlt]. split.
      * constructor; [exact Hs | exact Hgt].
      * constructor; [exact Hlt |]. eapply Forall_impl; [| exact Hgt]. cbn. intros; lia.
    + split; [exact Hs |]. eapply Forall_impl; [| exact Hgt]. cbn. intros; lia.
Qed.

Lemma new_client_ordered : wire_ordered new_client.
Proof. split; constructor. Qed.

(** C10.  When no item of the chat context has the role ['user'],
    [_send_request] raises and transmits no request, and the counter keeps
    its value; once the connection step has succeeded the exception is
    [ValueError("No user message found")].  Any request that is transmitted
    carries the content of the last user item of the context and nothing
    else, and is numbered one above the counter.  Over any series of turns
    on a client the ids returned by the successful sends, and the ids of
    the requests put on the wire, are strictly increasing. *)
Theorem C10_send_needs_a_user_message
    (items : list ChatItem) (env : SendEnv) (c : Client)
    (calls : list (list ChatItem * SendEnv)) :
  (Forall (fun m => is_user m = false) items ->
     (exists e, fst (send_request items env c) = Raised e)
     /\ (fst (ensure_connection env c) = Val tt ->
         fst (send_request items env c)
         = Raised (PyException "ValueError" "No user message found"))
     /\ transmitted_requests (wire (snd (send_request items env c)))
        = transmitted_requests (wire c)
     /\ response_id_counter (snd (send_request items env c)) = response_id_counter c)
  /\ (forall r,
        transmitted_requests (wire (snd (send_request items env c)))
        = (transmitted_requests (wire c) ++ [r])%list ->
        exists before m after,
          items = (before ++ m :: after)%list
          /\ is_user m = true
          /\ Forall (fun x => is_user x = false) after
          /\ r = mkRequest "response_required" (response_id_counter c + 1)
                           [("user", extract_message_content m)])
  /\ StronglySorted Z.lt (successes (fst (send_all calls new_client)))
  /\ StronglySorted Z.lt (transmitted_ids (wire (snd (send_all calls new_client)))).
Proof.
  split; [| split].
  - intros H. pose proof (latest_user_message_none items H) as L.
    destruct (ensure_connection_spec env c) as [Hn Hw].
    rewrite send_request_unfold.
    destruct (ensure_connection env c) as [[[] | e] c1]; cbn [fst snd] in *;
      rewrite ?L; cbn [fst snd]; repeat split; eauto; discriminate.
  - intros r Hr.
    destruct (send_request_spec items env c)
      as [(Hw & _) | (before & m & after & Hi & Um & Ua & Hw & _)].
    + rewrite Hw in Hr. rewrite <- (app_nil_r (transmitted_requests (wire c))) in Hr at 1.
      apply app_inv_head in Hr. discriminate.
    + rewrite Hw in Hr. apply app_inv_head in Hr. injection Hr as <-.
      exists before, m, after. auto.
  - destruct (send_all_spec calls new_client new_client_ordered) as ([Hs _] & _ & Hsucc & _).
    auto.
Qed.

(** No user message: an assistant line and an item without a role. *)
Lemma C10_send_needs_a_user_message_witness :
  let items := [mkChatItem (Some "assistant") (ContentList ["Hello"]);
                mkChatItem None (Opaque "function_call")] in
  Forall (fun m => is_user m = false) items
  /\ fst (send_request items network_up new_client)
     = Raised (PyException "ValueError" "No user message found")
  /\ transmitted_requests (wire (snd (send_request items network_up new_client))) = [].
Proof.
  assert (H : Forall (fun m => is_user m = false)
                [mkChatItem (Some "assistant") (ContentList ["Hello"]);
                 mkChatItem None (Opaque "function_call")]).
  { repeat constructor. }
  split; [exact H |].
  destruct (C10_send_needs_a_user_message
              [mkChatItem (Some "assistant") (ContentList ["Hello"]);
               mkChatItem None (Opaque "function_call")]
              network_up new_client [])
    as [K _].
  destruct (K H) as (_ & Kv & Kw & _).
  split; [exact (Kv eq_refl) | exact Kw].
Defined.

(** *** Receiving *)

Lemma typed_field_lookup (fields : list (string * Json)) (key : string)
    (ok : Json -> bool) (v : Json) :
  typed_field fields key ok = true -> lookup key fields = Some v -> ok v = true.
Proof. unfold typed_field. intros T L. rewrite L in T. exact T. Qed.

(** On a frame of the protocol the test of lines 149-150 is [matches], and
    the content and the completion flag are those of the specification. *)
Lemma protocol_object (N : Z) (fields : list (string * Json)) :
  protocol_frame (Decoded (JObj fields)) = true ->
  py_eq_str (dict_get fields "response_type" JNull) "response"
    && py_eq_int (dict_get fields "response_id" JNull) N
  = matches N (Decoded (JObj fields))
  /\ dict_get fields "content" (JStr "") = JStr (content_of (Decoded (JObj fields)))
  /\ truthy (dict_get fields "content_complete" (JBool false))
     = content_complete (Decoded (JObj fields)).
Proof.
  cbn [protocol_frame]. intros P.
  apply andb_prop in P. destruct P as [P Pc]. apply andb_prop in P. destruct P as [Pi Ps].
  unfold dict_get, matches, content_of, content_complete.
  split; [| split].
  - destruct (lookup "response_id" fields) as [vi |] eqn:Li.
    + pose proof (typed_field_lookup _ _ _ _ Pi Li) as T.
      destruct vi; try discriminate.
      destruct (lookup "response_type" fields) as [[] |]; reflexivity.
    + destruct (lookup "response_type" fields) as [[] |]; cbn; rewrite ?andb_false_r; reflexivity.
  - destruct (lookup "content" fields) as [vc |] eqn:Lc; [| reflexivity].
    pose proof (typed_field_lookup _ _ _ _ Ps Lc) as T.
    destruct vc; try discriminate. reflexivity.
  - destruct (lookup "content_complete" fields) as [vb |] eqn:Lb; [| reflexivity].
    pose proof (typed_field_lookup _ _ _ _ Pc Lb) as T.
    destruct vb; try discriminate. reflexivity.
Qed.

(** One step of the loop on a frame of the protocol. *)
Lemma receive_response_step (N : Z) (f : Inbound) (rest : list Inbound) :
  protocol_frame f = true ->
  receive_response N (f :: rest) =
  if matches N f then
    if content_complete f then
      (if non_empty (content_of f) then [content_of f] else [], Completed)
    else
      ((if non_empty (content_of f) then [content_of f] else [])
         ++ fst (receive_response N rest),
       snd (receive_response N rest))%list
  else receive_response N rest.
Proof.
  intros P. destruct f as [raw | v | e]; [reflexivity | | discriminate].
  destruct v as [ | | | | | | fields]; try discriminate.
  destruct (protocol_object N fields P) as (Em & Ec & Eb).
  cbn [receive_response]. rewrite Em, Ec, Eb. cbn [truthy].
  fold (non_empty (content_of (Decoded (JObj fields)))).
  destruct (matches N (Decoded (JObj fields))); [| reflexivity].
  destruct (non_empty (content_of (Decoded (JObj fields))));
    destruct (content_complete (Decoded (JObj fields)));
    try reflexivity;
    destruct (receive_response N rest); reflexivity.
Qed.

Lemma spec_stream_step (N : Z) (f : Inbound) (rest : list Inbound) :
  spec_stream N (f :: rest) =
  if matches N f then
    if content_complete f then
      (if non_empty (content_of f) then [content_of f] else [], Completed)
    else
      ((if non_empty (content_of f) then [content_of f] else [])
         ++ fst (spec_stream N rest),
       snd (spec_stream N rest))%list
  else spec_stream N rest.
Proof.
  unfold spec_stream. cbn [filter].
  destruct (matches N f); [| reflexivity].
  cbn [through existsb]. destruct (content_complete f); cbn [map filter orb fst snd];
    destruct (non_empty (content_of f)); reflexivity.
Qed.

Lemma receive_response_refines (N : Z) (frames : list Inbound) :
  Forall (fun f => protocol_frame f = true) frames ->
  receive_response N frames = spec_stream N frames.
Proof.
  induction 1 as [| f rest P _ IH]; [reflexivity |].
  rewrite receive_response_step by exact P. rewrite spec_stream_step, IH. reflexivity.
Qed.

Lemma through_app_none {A} (p : A -> bool) (l l' : list A) :
  existsb p l = false -> through p (l ++ l') = (l ++ through p l')%list.
Proof.
  induction l as [| x l IH]; cbn; [reflexivity |].
  intros E. apply orb_false_elim in E. destruct E as [-> E].
  f_equal. apply IH, E.
Qed.

Lemma through_none {A} (p : A -> bool) (l : list A) :
  existsb p l = false -> through p l = l.
Proof.
  intros E. rewrite <- (app_nil_r l) at 1. rewrite through_app_none by exact E.
  apply app_nil_r.
Qed.

Lemma matches_response_frame (N : Z) (content : string) (complete : bool) :
  matches N (response_frame N content complete) = true.
Proof. cbn. apply Z.eqb_refl. Qed.

(** C5.  On frames of the wire protocol (text that is not JSON, or objects
    with an integer [response_id], a string [content] and a boolean
    [content_complete] where present) the generator yields the non-empty
    contents of the frames that match the expected id, in arrival order, up
    to and including the first matching frame that carries the completion
    flag, and it is complete exactly when there is such a frame.  A frame
    that does not match (another id, another [response_type], not JSON) can
    be removed without changing what is yielded.  A matching frame with
    empty content and the completion flag, arriving while the response is
    still open, ends the stream and adds no delta. *)
Theorem C5_receive_response_yields_matching_content
    (N : Z) (frames : list Inbound) :
  Forall (fun f => protocol_frame f = true) frames ->
  receive_response N frames = spec_stream N frames
  /\ (forall l1 f l2,
        frames = (l1 ++ f :: l2)%list -> matches N f = false ->
        receive_response N frames = receive_response N (l1 ++ l2))
  /\ (existsb content_complete (filter (matches N) frames) = false ->
      receive_response N (frames ++ [response_frame N "" true])
      = (fst (receive_response N frames), Completed)).
Proof.
  intros P. split; [apply receive_response_refines, P |]. split.
  - intros l1 f l2 -> Hf.
    apply Forall_app in P. destruct P as [P1 P2].
    inversion P2 as [| ? ? _ P2']; subst.
    rewrite !receive_response_refines by (try apply Forall_app; auto).
    unfold spec_stream. rewrite !filter_app. cbn [filter]. rewrite Hf. reflexivity.
  - intros E.
    rewrite (receive_response_refines N frames P).
    rewrite receive_response_refines
      by (apply Forall_app; split; [exact P | repeat constructor]).
    unfold spec_stream. rewrite filter_app. cbn [filter].
    rewrite matches_response_frame, through_app_none by exact E.
    rewrite (through_none content_complete (filter (matches N) frames) E).
    rewrite existsb_app, E, map_app, filter_app. cbn. rewrite app_nil_r. reflexivity.
Qed.

(** A stale completed response for id 1, a line that is not JSON, and the
    response for id 2 in four frames, the last one empty and complete. *)
Lemma C5_receive_response_yields_matching_content_witness :
  let frames := [response_frame 1 "old" true;
                 Undecodable "not json";
                 response_frame 2 "Hel" false;
                 response_frame 2 "" false;
                 response_frame 2 "lo" false] in
  Forall (fun f => protocol_frame f = true) frames
  /\ receive_response 2 frames = (["Hel"; "lo"], Waiting)
  /\ receive_response 2 (frames ++ [response_frame 2 "" true]) = (["Hel"; "lo"], Completed).
Proof.
  assert (P : Forall (fun f => protocol_frame f = true)
                [response_frame 1 "old" true;
                 Undecodable "not json";
                 response_frame 2 "Hel" false;
                 response_frame 2 "" false;
                 response_frame 2 "lo" false]).
  { repeat constructor. }
  split; [exact P |].
  destruct (C5_receive_response_yields_matching_content 2 _ P) as (E & _ & K).
  split; [exact E |]. exact (K eq_refl).
Defined.

(** *** The request lock *)

Lemma set_phase_same (t : nat) (p : Phase) (f : nat -> Phase) : set_phase t p f t = p.
Proof. unfold set_phase. rewrite Nat.eqb_refl. reflexivity. Qed.

Lemma set_phase_other (t t' : nat) (p : Phase) (f : nat -> Phase) :
  t' <> t -> set_phase t p f t' = f t'.
Proof.
  intros H. unfold set_phase. destruct (Nat.eqb_spec t' t); [contradiction | reflexivity].
Qed.

(** Task [t] takes the free lock. *)
Lemma acquire_invariant (l : Loop) (t : nat) (p : Phase) (c : Client) (h : list Hist) :
  lock_invariant l -> request_lock l = None -> holds_lock p = true ->
  lock_invariant (mkLoop (Some t) c (set_phase t p (phase l)) h).
Proof.
  intros I Free Hp t'. cbn [phase request_lock].
  destruct (Nat.eq_dec t' t) as [-> | Ne].
  - rewrite set_phase_same. tauto.
  - rewrite set_phase_other by exact Ne. rewrite (I t'), Free.
    split; [discriminate | intros [= E]; congruence].
Qed.

(** Task [t], which holds the lock, gives it back. *)
Lemma release_invariant (l : Loop) (t : nat) (p : Phase) (c : Client) (h : list Hist) :
  lock_invariant l -> holds_lock (phase l t) = true -> holds_lock p = false ->
  lock_invariant (mkLoop None c (set_phase t p (phase l)) h).
Proof.
  intros I Held Hp t'. cbn [phase request_lock].
  apply I in Held.
  destruct (Nat.eq_dec t' t) as [-> | Ne].
  - rewrite set_phase_same, Hp. split; discriminate.
  - rewrite set_phase_other by exact Ne. rewrite (I t'), Held.
    split; [intros [= E]; congruence | discriminate].
Qed.

Lemma step_invariant (turns : nat -> Turn) (l : Loop) (t : nat) :
  lock_invariant l -> lock_invariant (step turns l t).
Proof.
  intros I. unfold step. destruct (phase l t) eqn:Pt.
  - destruct (request_lock l) eqn:L; [exact I |]. apply acquire_invariant; auto.
  - destruct (send_request _ _ _) as [[id | e] c'];
      apply release_invariant; auto; rewrite Pt; reflexivity.
  - destruct (request_lock l) eqn:L; [exact I |]. apply acquire_invariant; auto.
  - apply release_invariant; auto. rewrite Pt. reflexivity.
  - exact I.
  - exact I.
Qed.

Lemma step_ordered (turns : nat -> Turn) (l : Loop) (t : nat) :
  wire_ordered (client l) -> wire_ordered (client (step turns l t)).
Proof.
  intros W. unfold step. destruct (phase l t).
  - destruct (request_lock l); exact W.
  - pose proof (send_request_ordered (items (turns t)) (env (turns t)) (client l) W) as W'.
    destruct (send_request _ _ _) as [[id | e] c']; exact W'.
  - destruct (request_lock l); exact W.
  - exact W.
  - exact W.
  - exact W.
Qed.

Lemma schedule_invariant (turns : nat -> Turn) (sched : list nat) : forall l : Loop,
  lock_invariant l -> wire_ordered (client l) ->
  lock_invariant (schedule turns sched l)
  /\ wire_ordered (client (schedule turns sched l)).
Proof.
  unfold schedule. induction sched as [| t sched IH]; intros l I W; cbn; [auto |].
  apply IH; [apply step_invariant, I | apply step_ordered, W].
Qed.

Lemma start_invariant : lock_invariant start.
Proof. intros t. cbn. split; discriminate. Qed.

(** C4, as the code has it.  However the chat turns that share a client are
    interleaved, [_request_lock] is held by exactly the one task that is
    inside the send block or inside the drain loop, so at most one task is
    in either at any time; and the requests on the wire carry strictly
    increasing ids.  The lock is taken once for the send and once more for
    the drain, and is free in between. *)
Theorem C4_one_task_inside_send_or_drain (turns : nat -> Turn) (sched : list nat) :
  let l := schedule turns sched start in
  (forall t, holds_lock (phase l t) = true <-> request_lock l = Some t)
  /\ (forall t1 t2,
        holds_lock (phase l t1) = true -> holds_lock (phase l t2) = true -> t1 = t2)
  /\ StronglySorted Z.lt (transmitted_ids (wire (client l)))
  /\ (forall t id, phase l t = WantsDrain id -> request_lock l <> Some t).
Proof.
  destruct (schedule_invariant turns sched start start_invariant new_client_ordered)
    as [I [W _]].
  cbv zeta. split; [exact I |]. split; [| split; [exact W |]].
  - intros t1 t2 H1 H2. apply I in H1, H2. congruence.
  - intros t id Pt L. apply I in L. rewrite Pt in L. discriminate.
Qed.

(** C4 as stated fails.  Two turns on one client: the first takes the lock,
    sends request 1 and leaves [_send_request], which frees the lock; before
    the first stream is iterated the second turn takes the lock and sends
    request 2; only then does the first turn start to drain. *)
Lemma C4_second_send_before_first_drain :
  let turns := fun _ : nat => mkTurn [user_says "hello"] network_up in
  let l := schedule turns [0; 0; 1; 1; 0]%nat start in
  history l = [SendDone 0 1; SendDone 1 2; DrainBegin 0 1]
  /\ transmitted_ids (wire (client l)) = [1; 2]
  /\ send_in_between (history l).
Proof.
  cbv zeta. split; [reflexivity |]. split; [reflexivity |].
  exists 0%nat, 1, 1%nat, 2, [], [], [], []. split; [discriminate | reflexivity].
Qed.

(** Outside the protocol the loop does not discard: JSON that is not an
    object has no [get], and content that is not a string cannot be added to
    [full_content]; both exceptions leave the generator.  [true] equals 1 in
    Python, so it passes for the expected id 1. *)
Example non_object_frame_raises :
  receive_response 1 [Decoded (JArr []); response_frame 1 "late" true]
  = ([], Failed (PyException "AttributeError" "object has no attribute 'get'")).
Proof. reflexivity. Qed.

Example non_string_content_raises :
  receive_response 1
    [Decoded (JObj [("response_type", JStr "response");
                    ("response_id", JBool true);
                    ("content", JInt 5)])]
  = ([], Failed (PyException "TypeError" "can only concatenate str to str")).
Proof. reflexivity. Qed.

(** A timeout of [recv] ends the generator with what was yielded so far. *)
Example timeout_while_draining :
  receive_response 3
    [response_frame 3 "Hi" false;
     RecvFails (PyException "TimeoutError" "");
     response_frame 3 "!" true]
  = (["Hi"], Failed (PyException "TimeoutError" "")).
Proof. reflexivity. Qed.

End SocketBackendFacts.

(** ** The hosted-provider backend *)

Section HostedBackendFacts.

Import HostedBackend.

Lemma append_assoc (a b c : string) : ((a ++ b) ++ c = a ++ (b ++ c))%string.
Proof. induction a as [| x a IH]; cbn; [reflexivity | f_equal; exact IH]. Qed.

Lemma append_empty_r (a : string) : (a ++ "")%string = a.
Proof. induction a as [| x a IH]; cbn; [reflexivity | f_equal; exact IH]. Qed.

Lemma length_append (a b : string) :
  String.length (a ++ b) = (String.length a + String.length b)%nat.
Proof. induction a as [| x a IH]; cbn; [reflexivity | f_equal; exact IH]. Qed.

(** The send raises on every channel and leaves it as it was. *)
Lemma asend_raises (c : ChatChunk) (ch : Chan) :
  asend c ch = (Raised no_asend, ch).
Proof. reflexivity. Qed.

(** The loop stops at the first delta that has text; when there is none
    it ends as the iterator ends. *)
Lemma forward_outcome (chunk_id : string) (ending : option PyExc) (chunks : list Chunk) :
  forall (content_buffer : string) (ch : Chan),
  forward chunk_id chunks ending content_buffer ch =
  (match deltas chunks with
   | [] => match ending with None => Val content_buffer | Some e => Raised e end
   | _ :: _ => Raised no_asend
   end, ch).
Proof.
  induction chunks as [| chunk chunks IH]; intros buf ch.
  - cbn. destruct ending; reflexivity.
  - cbn [forward deltas]. destruct (choices chunk) as [| choice _]; [apply IH |].
    destruct (delta choice) as [ | | s]; try apply IH.
    destruct (String.eqb s ""); cbn [negb]; [apply IH |].
    unfold bind. rewrite asend_raises. reflexivity.
Qed.

(** [_run] in closed form: it never returns normally and never sends.  A
    cancellation that comes before any text leaves it as it is; in every
    other case a send is tried, in the loop, for the fallback or in the
    handler, and its [AttributeError] is what leaves. *)
Lemma run_outcome (completion : Completion) (exc_ident : string) (ch : Chan) :
  run completion exc_ident ch
  = (Raised (if cancelled_before_text completion then CancelledError else no_asend), ch).
Proof.
  unfold run, try_except, bind, raise.
  destruct completion as [[cls msg | ] | ident chunks ending];
    cbn [cancelled_before_text]; try reflexivity.
  rewrite forward_outcome.
  destruct (deltas chunks) as [| d ds], ending as [[cls msg | ] | ]; reflexivity.
Qed.

(** C8.  The code does not do what the claim says.  When the provider
    raises an [Exception] while it is iterated, after any chunks, [_run]
    sends neither the deltas nor an apology: the first send of the loop
    raises [AttributeError], the handler of line 93 takes it (or, with no
    text so far, the provider's exception), and its own send at line 102
    raises [AttributeError] again, which leaves [_run] with the channel as
    it was. *)
Theorem C8_provider_failure_sends_nothing
    (ident exc_ident cls msg : string) (chunks : list Chunk) (ch : Chan) :
  run (Stream ident chunks (Some (PyException cls msg))) exc_ident ch
  = (Raised no_asend, ch).
Proof.
  rewrite run_outcome. reflexivity.
Qed.

(** Two partial deltas, an empty chunk between them, then the failure. *)
Example provider_fails_after_two_deltas :
  run (Stream "1" [text "Hel"; mkChunk []; text "lo"]
         (Some (PyException "APIError" "connection reset"))) "2" open_chan
  = (Raised (PyException "AttributeError" "'Chan' object has no attribute 'asend'"),
     mkChan false []).
Proof. reflexivity. Qed.

(** C9.  The code does not do what the claim says.  When the provider's
    iterator ends without raising, [_run] sends nothing, with or without
    accumulated content: with none, the send of the fallback at line 91
    raises [AttributeError] inside the [try], and the send of the handler
    at line 102 raises it again; the exception leaves [_run] with the
    channel as it was. *)
Theorem C9_empty_completion_sends_nothing
    (ident exc_ident : string) (chunks : list Chunk) (ch : Chan) :
  run (Stream ident chunks None) exc_ident ch = (Raised no_asend, ch).
Proof.
  rewrite run_outcome. reflexivity.
Qed.

(** Three chunks with nothing to say: no choices, an empty string, [None]. *)
Example completion_without_text :
  deltas [mkChunk []; text ""; mkChunk [mkChoice ContentNone]] = []
  /\ run (Stream "1" [mkChunk []; text ""; mkChunk [mkChoice ContentNone]] None)
         "2" open_chan
     = (Raised (PyException "AttributeError" "'Chan' object has no attribute 'asend'"),
        mkChan false []).
Proof. split; reflexivity. Qed.

(** The chunk that is built carries the id and nothing of the text. *)
Example chunk_without_delta :
  create_chat_chunk "groq_1" "Hello" = mkChatChunk "groq_1" None.
Proof. reflexivity. Qed.

End HostedBackendFacts.

(** ** The other function tools *)

Section AgentToolsFacts.

Import CallTerminator AgentTools.

(** What [record_call_end] adds to the inserts: nothing behind the guard,
    and one insert with the room and the reason otherwise. *)
Lemma record_call_end_inserts (end_reason : string) (io : Res string) (w : World) :
  filter is_insert (trace (snd (record_call_end end_reason io w)))
  = (filter is_insert (trace w)
     ++ if guarded w then []
        else [InsertCallEnd (room_name (call_state w)) end_reason])%list.
Proof.
  destruct (guarded w) eqn:G.
  - rewrite record_call_end_guarded by exact G. cbn. symmetry. apply app_nil_r.
  - unfold record_call_end, bind. rewrite record_call_end_enter_fresh by exact G.
    rewrite (proj1 (proj2 (record_call_end_resume_spec end_reason io _))).
    cbn [trace]. rewrite filter_app. reflexivity.
Qed.

Lemma detected_answering_machine_unfold (participant : option string)
    (io : Res string) (w : World) :
  detected_answering_machine participant io w =
  match record_call_end "Answering machine detected" io
          (mkWorld (call_state w)
             (trace w ++ [LogInfo ("Detected answering machine for " ++
                 match participant with Some i => i | None => "unknown" end)]))
  with
  | (Val _, w') => (Val "Noted", mkWorld (call_state w') (trace w' ++ [Hangup]))
  | (Raised e, w') => (Raised e, w')
  end.
Proof.
  unfold detected_answering_machine, bind at 1, emit at 1, modify. cbn.
  unfold bind at 1.
  destruct (record_call_end _ _ _) as [[[] | e] w']; reflexivity.
Qed.

(** One tool call: inserts and guard. *)
Lemma invoke_inserts (t : ToolCall) (w : World) :
  filter is_insert (trace (snd (invoke t w)))
  = (filter is_insert (trace w)
     ++ if guarded w then []
        else [InsertCallEnd (room_name (call_state w)) (end_reason t)])%list
  /\ guarded (snd (invoke t w)) = true.
Proof.
  destruct t as [participant current_language env | participant io]; cbn [invoke end_reason].
  - split; [| apply end_call_then_guarded].
    rewrite end_call_unfold.
    match goal with |- context [record_call_end ?r ?io ?w0] =>
      pose proof (record_call_end_inserts r io w0) as Hi;
      destruct (record_call_end r io w0) as [[[] | e] w'] end;
      cbn [snd trace call_state] in Hi |- *.
    + rewrite (proj1 (proj2 (closing_spec current_language env w'))), Hi.
      rewrite filter_app. cbn. rewrite app_nil_r. reflexivity.
    + rewrite Hi, filter_app. cbn. rewrite app_nil_r. reflexivity.
  - rewrite detected_answering_machine_unfold.
    match goal with |- context [record_call_end ?r ?io ?w0] =>
      pose proof (record_call_end_inserts r io w0) as Hi;
      pose proof (record_call_end_then_guarded r io w0) as Hg;
      destruct (record_call_end r io w0) as [[[] | e] w'] end;
      cbn [snd trace call_state] in Hi, Hg |- *.
    + split; [| exact Hg].
      rewrite filter_app, Hi, filter_app. cbn. rewrite !app_nil_r. reflexivity.
    + split; [| exact Hg]. rewrite Hi, filter_app. cbn. rewrite app_nil_r. reflexivity.
Qed.

Lemma invoke_all_guarded (ts : list ToolCall) : forall w : World,
  guarded w = true ->
  filter is_insert (trace (invoke_all ts w)) = filter is_insert (trace w).
Proof.
  unfold invoke_all. induction ts as [| t ts IH]; intros w G; cbn; [reflexivity |].
  destruct (invoke_inserts t w) as [Hi Hg]. rewrite G in Hi.
  rewrite IH by exact Hg. rewrite Hi. apply app_nil_r.
Qed.

(** Whatever series of [end_call] and [detected_answering_machine] calls
    the model makes, and whatever the collaborators answer, the end of the
    call is recorded by the first of them only, with that tool's reason; on
    a call that never started, or is already recorded, by none. *)
Theorem tool_calls_record_the_first_reason_only (ts : list ToolCall) (w : World) :
  filter is_insert (trace (invoke_all ts w))
  = (filter is_insert (trace w)
     ++ match ts with
        | [] => []
        | t :: _ =>
            if guarded w then []
            else [InsertCallEnd (room_name (call_state w)) (end_reason t)]
        end)%list.
Proof.
  destruct ts as [| t ts]; [cbn; symmetry; apply app_nil_r |].
  unfold invoke_all. cbn [fold_left]. fold (invoke_all ts (snd (invoke t w))).
  destruct (invoke_inserts t w) as [Hi Hg].
  rewrite invoke_all_guarded by exact Hg. exact Hi.
Qed.

(** *** The knowledge-base search *)

Lemma mem_In (x : string) (l : list string) : mem x l = true <-> In x l.
Proof.
  unfold mem. rewrite existsb_exists. split.
  - intros (y & Hy & E). apply String.eqb_eq in E. subst. exact Hy.
  - intros H. exists x. split; [exact H | apply String.eqb_refl].
Qed.

(** One search in closed form. *)
Lemma search_unfold (query : string) (all_results seen : list string) :
  search_earkart_knowledge_base query (Val all_results) seen =
  match filter (fun r => negb (mem r seen)) all_results with
  | [] => (Val (Message ("No new context found for query: " ++ query ++ ".")), seen)
  | r :: rest =>
      (Val (Snippets (firstn 2 (r :: rest))), (seen ++ firstn 2 (r :: rest))%list)
  end.
Proof.
  unfold search_earkart_knowledge_base, bind, await, get.
  destruct (filter _ all_results) as [| r rest]; reflexivity.
Qed.

(** What a search returns was not in the set and is in it afterwards; the
    set only grows, by what was returned. *)
Lemma search_spec (query : string) (rag : Res (list string)) (seen : list string) :
  let r := fst (search_earkart_knowledge_base query rag seen) in
  let seen' := snd (search_earkart_knowledge_base query rag seen) in
  (forall x, In x (snippets r) -> ~ In x seen /\ In x seen')
  /\ incl seen seen'
  /\ (List.length (snippets r) <= 2)%nat.
Proof.
  cbv zeta. destruct rag as [all_results | e].
  - rewrite search_unfold.
    destruct (filter (fun r => negb (mem r seen)) all_results) as [| r rest] eqn:F.
    + cbn. repeat split; try contradiction; auto using incl_refl.
    + cbn [fst snd snippets]. split; [| split].
      * intros x Hx. split.
        -- assert (Hin : In x (filter (fun r => negb (mem r seen)) all_results)).
           { rewrite F, <- (firstn_skipn 2 (r :: rest)). apply in_or_app. left. exact Hx. }
           apply filter_In in Hin. destruct Hin as [_ Hm].
           intros Hs. apply mem_In in Hs. rewrite Hs in Hm. discriminate.
        -- apply in_or_app. right. exact Hx.
      * apply incl_appl, incl_refl.
      * apply firstn_le_length.
  - cbn. repeat split; try contradiction; auto using incl_refl.
Qed.

(** Over any series of searches, whatever the retrieval returns, no snippet
    is handed out by two different searches, none that was already in the
    set is handed out at all, and a search hands out at most two. *)
Theorem searches_never_repeat_a_snippet
    (qs : list (string * Res (list string))) (seen : list string) :
  let rs := fst (search_all qs seen) in
  ForallOrdPairs (fun a b => forall x, In x (snippets a) -> ~ In x (snippets b)) rs
  /\ Forall (fun r => forall x, In x (snippets r) -> ~ In x seen) rs
  /\ Forall (fun r => (List.length (snippets r) <= 2)%nat) rs.
Proof.
  cbv zeta. revert seen. induction qs as [| [query rag] qs IH]; intros seen.
  - cbn. repeat constructor.
  - cbn [search_all].
    destruct (search_spec query rag seen) as (Hnew & Hincl & Hlen).
    destruct (search_earkart_knowledge_base query rag seen) as [r seen1].
    cbn [fst snd] in Hnew, Hincl, Hlen.
    destruct (IH seen1) as (Hpairs & Hfresh & Hlens).
    destruct (search_all qs seen1) as [rs seen2]. cbn [fst] in *.
    split; [| split].
    + constructor; [| exact Hpairs].
      eapply Forall_impl; [| exact Hfresh]. cbn.
      intros b Hb x Hx Hxb. apply (Hb x Hxb). apply (Hnew x Hx).
    + constructor; [intros x Hx; apply (Hnew x Hx) |].
      eapply Forall_impl; [| exact Hfresh]. cbn.
      intros b Hb x Hx Hs. apply (Hb x Hx). apply Hincl, Hs.
    + constructor; assumption.
Qed.

Lemma unseen_after_prefix (l : list string) : forall m : nat,
  NoDup l ->
  filter (fun r => negb (mem r (firstn m l))) l = skipn m l.
Proof.
  induction l as [| x l IH]; intros m N; [destruct m; reflexivity |].
  inversion N as [| ? ? Hx Nl]; subst.
  destruct m as [| m].
  - cbn [firstn skipn]. apply forallb_filter_id. apply forallb_forall. reflexivity.
  - cbn [firstn skipn filter]. unfold mem at 1. cbn [existsb].
    rewrite String.eqb_refl. cbn [orb negb].
    rewrite <- (IH m Nl). apply filter_ext_in. intros r Hr.
    unfold mem. cbn [existsb].
    destruct (String.eqb_spec r x) as [-> | _]; [contradiction | reflexivity].
Qed.

Lemma firstn_add {A} (a b : nat) (l : list A) :
  firstn (a + b) l = (firstn a l ++ firstn b (skipn a l))%list.
Proof.
  revert l. induction a as [| a IH]; intros l; [reflexivity |].
  destruct l as [| x l]; cbn; [destruct b; reflexivity |]. f_equal. apply IH.
Qed.

Lemma same_question_from (query : string) (l : list string) (k : nat) : forall m : nat,
  NoDup l ->
  List.concat (map snippets (fst (search_all (repeat (query, Val l) k) (firstn m l))))
  = firstn (2 * k) (skipn m l)
  /\ snd (search_all (repeat (query, Val l) k) (firstn m l)) = firstn (m + 2 * k) l.
Proof.
  induction k as [| k IH]; intros m N.
  - cbn. rewrite Nat.add_0_r. auto.
  - cbn [repeat search_all]. rewrite search_unfold, (unseen_after_prefix l m N).
    replace (2 * S k)%nat with (2 + 2 * k)%nat by lia.
    destruct (skipn m l) as [| r rest] eqn:S.
    + assert (Hm : (List.length l <= m)%nat).
      { destruct (Nat.le_gt_cases (List.length l) m) as [H | H]; [exact H |].
        pose proof (length_skipn m l) as L. rewrite S in L. cbn in L. lia. }
      specialize (IH m N). rewrite S in IH.
      destruct (search_all (repeat (query, Val l) k) (firstn m l)) as [rs seen'].
      cbn [fst snd map List.concat snippets app] in *. destruct IH as [IH1 IH2].
      rewrite IH1, !firstn_nil. split; [reflexivity |].
      rewrite IH2, !firstn_all2 by lia. reflexivity.
    + assert (E : (firstn m l ++ firstn 2 (r :: rest))%list = firstn (m + 2) l).
      { rewrite firstn_add, S. reflexivity. }
      rewrite E. specialize (IH (m + 2)%nat N).
      destruct (search_all (repeat (query, Val l) k) (firstn (m + 2) l)) as [rs seen'].
      cbn [fst snd map List.concat snippets] in *. destruct IH as [IH1 IH2].
      rewrite IH1, IH2. split.
      * rewrite (firstn_add 2 (2 * k)). f_equal.
        rewrite <- S, skipn_skipn. f_equal. f_equal. lia.
      * f_equal. lia.
Qed.

(** Asking the same question again pages through the retrieval's answer:
    when it returns the same list of distinct snippets every time, the
    first [k] searches of a fresh agent hand out its first [2 * k] entries,
    in order, two at a time, and the set of seen results is those entries. *)
Theorem same_question_pages_through_the_results
    (query : string) (l : list string) (k : nat) :
  NoDup l ->
  List.concat (map snippets (fst (search_all (repeat (query, Val l) k) []))) = firstn (2 * k) l
  /\ snd (search_all (repeat (query, Val l) k) []) = firstn (2 * k) l.
Proof.
  intros N. exact (same_question_from query l k 0 N).
Qed.

(** Five snippets, three searches: two, two, one. *)
Lemma same_question_pages_through_the_results_witness :
  NoDup ["a"; "b"; "c"; "d"; "e"]
  /\ fst (search_all (repeat ("price", Val ["a"; "b"; "c"; "d"; "e"]) 4) [])
     = [Val (Snippets ["a"; "b"]); Val (Snippets ["c"; "d"]); Val (Snippets ["e"]);
        Val (Message "No new context found for query: price.")]
  /\ List.concat (map snippets
       (fst (search_all (repeat ("price", Val ["a"; "b"; "c"; "d"; "e"]) 4) [])))
     = firstn (2 * 4) ["a"; "b"; "c"; "d"; "e"].
Proof.
  assert (N : NoDup ["a"; "b"; "c"; "d"; "e"]).
  { repeat constructor; cbn; intuition discriminate. }
  split; [exact N |]. split; [reflexivity |].
  exact (proj1 (same_question_pages_through_the_results "price"
                  ["a"; "b"; "c"; "d"; "e"] 4 N)).
Defined.

End AgentToolsFacts.

(** ** More on the idle watchdog *)

Section WatchdogTraceFacts.

Import IdleWatchdog WatchdogTrace.
Local Open Scope Z_scope.

(** The warning step adds nothing or the warning line, never a hang-up. *)
Lemma warning_check_spec (warning : Z) (env : TickEnv) (elapsed : Z) (w : World) :
  exists added,
    trace (snd (warning_check warning env elapsed w)) = (trace w ++ added)%list
    /\ (added = [] \/ added = [(now_after_sleep env, Say warning_text)]).
Proof.
  unfold warning_check, bind at 1, get.
  destruct ((elapsed >? seconds warning) && negb (warning_sent (timers w)));
    [| exists []; cbn; rewrite app_nil_r; auto].
  unfold try_except. destruct (started_at_warning env);
    [| exists []; cbn; rewrite app_nil_r; auto].
  exists [(now_after_sleep env, Say warning_text)]. split; [| auto].
  unfold bind, emit, suspend, deliver, modify, set_warning_sent,
    set_last_agent_finish_time, await, ret.
  destruct (wake (say_warning env)) as [[] | [cls msg | ]]; reflexivity.
Qed.

(** The idle step adds nothing, or the closing line alone when speaking or
    pausing failed, or the whole farewell, after which the loop is left. *)
Lemma idle_check_spec (idle : Z) (env : TickEnv) (elapsed : Z) (w : World) :
  (exists added,
     trace (snd (idle_check idle env elapsed w)) = (trace w ++ added)%list
     /\ forallb (fun e => negb (is_hangup e)) added = true)
  \/ (trace (snd (idle_check idle env elapsed w))
      = (trace w ++ farewell (now_after_sleep env))%list
      /\ fst (idle_check idle env elapsed w) = Val Break
      /\ (elapsed >? seconds idle) = true
      /\ started_at_hangup env = true).
Proof.
  unfold idle_check.
  destruct (elapsed >? seconds idle);
    [| left; exists []; cbn; rewrite app_nil_r; auto].
  unfold try_except. destruct (started_at_hangup env);
    [| left; exists []; cbn; rewrite app_nil_r; auto].
  unfold bind, emit, suspend, deliver, modify, hangup, await, ret.
  destruct (wake (say_closing env)) as [[] | [cls msg | ]];
    [destruct (wake (sleep_closing env)) as [[] | [cls msg | ]] | |]; cbn;
    try (right; repeat rewrite <- app_assoc; auto; fail);
    left.
  - exists [(now_after_sleep env, Say closing_text); (now_after_sleep env, Pause 2)].
    rewrite <- app_assoc. auto.
  - exists [(now_after_sleep env, Say closing_text); (now_after_sleep env, Pause 2)].
    rewrite <- app_assoc. auto.
  - exists [(now_after_sleep env, Say closing_text)]. auto.
  - exists [(now_after_sleep env, Say closing_text)]. auto.
Qed.

(** One iteration, step by step. *)
Lemma iteration_unfold (idle warning : Z) (env : TickEnv) (w : World) :
  iteration idle warning env w =
  if negb (started_at_head env) then (Val Break, w)
  else
    let w1 := mkWorld (after_sleep env w) (trace w) in
    match wake (sleep_tick env) with
    | Raised e => (Raised e, w1)
    | Val _ =>
        match last_agent_finish_time (after_sleep env w) with
        | None => (Val Continue, w1)
        | Some a =>
            if last_user_activity (after_sleep env w) >? a then (Val Continue, w1)
            else
              match warning_check warning env (now_after_sleep env - a) w1 with
              | (Val Continue, w2) => idle_check idle env (now_after_sleep env - a) w2
              | (Val Break, w2) => (Val Break, w2)
              | (Raised e, w2) => (Raised e, w2)
              end
        end
    end.
Proof.
  unfold iteration. destruct (negb (started_at_head env)); [reflexivity |].
  unfold bind at 1. rewrite suspend_spec. fold (after_sleep env w). cbv zeta.
  destruct (wake (sleep_tick env)) as [[] | e]; [| reflexivity].
  unfold bind at 1, get. cbn [timers].
  destruct (last_agent_finish_time (after_sleep env w)) as [a |]; [| reflexivity].
  destruct (last_user_activity (after_sleep env w) >? a); [reflexivity |].
  unfold bind at 1.
  destruct (warning_check warning env (now_after_sleep env - a) _) as [[[ | ] | e] w2];
    reflexivity.
Qed.

(** What one iteration adds to the trace: effects other than a hang-up,
    and then possibly the farewell, in which case the loop is left and the
    tests of lines 123, 139, 160 and 162 had the outcome that leads there. *)
Lemma iteration_trace (idle warning : Z) (env : TickEnv) (w : World) :
  exists before,
    forallb (fun e => negb (is_hangup e)) before = true
    /\ (trace (snd (iteration idle warning env w)) = (trace w ++ before)%list
        \/ (trace (snd (iteration idle warning env w))
            = (trace w ++ before ++ farewell (now_after_sleep env))%list
            /\ fst (iteration idle warning env w) = Val Break
            /\ started_at_head env = true
            /\ started_at_hangup env = true
            /\ exists a,
                 last_agent_finish_time (after_sleep env w) = Some a
                 /\ seconds idle < now_after_sleep env - a
                 /\ last_user_activity (after_sleep env w) <= a)).
Proof.
  rewrite iteration_unfold.
  destruct (started_at_head env); cbn [negb];
    [| exists []; cbn; rewrite app_nil_r; auto].
  cbv zeta.
  destruct (wake (sleep_tick env)) as [[] | e];
    [| exists []; cbn; rewrite app_nil_r; auto].
  destruct (last_agent_finish_time (after_sleep env w)) as [a |] eqn:A;
    [| exists []; cbn; rewrite app_nil_r; auto].
  destruct (Z.gtb_spec (last_user_activity (after_sleep env w)) a) as [U | U];
    [exists []; cbn; rewrite app_nil_r; auto |].
  destruct (warning_check_spec warning env (now_after_sleep env - a)
              (mkWorld (after_sleep env w) (trace w))) as (said & Hw & Hsaid).
  cbn [trace] in Hw.
  assert (Nh : forallb (fun e => negb (is_hangup e)) said = true)
    by (destruct Hsaid as [-> | ->]; reflexivity).
  destruct (warning_check warning env (now_after_sleep env - a) _) as [[[ | ] | e] w2];
    cbn [snd] in Hw.
  - destruct (idle_check_spec idle env (now_after_sleep env - a) w2)
      as [(added & Ht & Na) | (Ht & Hr & Hi & Hs)].
    + exists (said ++ added)%list. rewrite forallb_app, Nh, Na. split; [reflexivity |].
      left. rewrite Ht, Hw, <- app_assoc. reflexivity.
    + exists said. split; [exact Nh |]. right.
      rewrite Ht, Hw, <- app_assoc. repeat split; auto.
      exists a. apply Z.gtb_lt in Hi. auto.
  - exists said. split; [exact Nh |]. left. exact Hw.
  - exists said. split; [exact Nh |]. left. exact Hw.
Qed.

(** The watcher hangs up at most once, and never without the farewell:
    whatever the session, the clock and the turn events do, what a run adds
    to the trace contains no hang-up at all, or ends with the closing line,
    the pause and the hang-up of one and the same iteration, with no other
    hang-up before them and with the loop left. *)
Theorem watcher_hangs_up_once_after_the_closing_line
    (idle_timeout warning_timeout : Z) (envs : list TickEnv) (w : World) :
  exists before,
    forallb (fun e => negb (is_hangup e)) before = true
    /\ (trace (snd (watch idle_timeout warning_timeout envs w)) = (trace w ++ before)%list
        \/ exists t,
             trace (snd (watch idle_timeout warning_timeout envs w))
             = (trace w ++ before ++ farewell t)%list
             /\ fst (watch idle_timeout warning_timeout envs w) = Exited).
Proof.
  revert w. induction envs as [| env envs IH]; intros w.
  - exists []. cbn. rewrite app_nil_r. auto.
  - cbn [watch].
    destruct (iteration_trace idle_timeout warning_timeout env w)
      as (before & Nb & [Ht | (Ht & Hr & _)]).
    + destruct (iteration idle_timeout warning_timeout env w)
        as [[[ | ] | [cls msg | ]] w1]; cbn [snd fst] in *;
        try (exists before; split; [exact Nb | left; exact Ht]).
      destruct (IH w1) as (more & Nm & [Hm | (t & Hm & Hs)]).
      * exists (before ++ more)%list. rewrite forallb_app, Nb, Nm.
        split; [reflexivity |]. left. rewrite Hm, Ht, <- app_assoc. reflexivity.
      * exists (before ++ more)%list. rewrite forallb_app, Nb, Nm.
        split; [reflexivity |]. right. exists t.
        rewrite Hm, Ht, <- !app_assoc. auto.
    + destruct (iteration idle_timeout warning_timeout env w) as [r w1].
      cbn [snd fst] in *. subst r.
      exists before. split; [exact Nb |]. right. exists (now_after_sleep env). auto.
Qed.

(** An iteration hangs up only if the session was started at its head and
    at line 162, an anchor was set, more than [idle_timeout] seconds had
    passed since it at the reading of line 134, and the user had not spoken
    after it. *)
Theorem hangup_needs_idle_time_and_a_silent_user
    (idle_timeout warning_timeout : Z) (env : TickEnv) (w : World) (t : Z) :
  ~ In (t, Hangup) (trace w) ->
  In (t, Hangup) (trace (snd (iteration idle_timeout warning_timeout env w))) ->
  t = now_after_sleep env
  /\ started_at_head env = true
  /\ started_at_hangup env = true
  /\ exists a,
       last_agent_finish_time (after_sleep env w) = Some a
       /\ seconds idle_timeout < now_after_sleep env - a
       /\ last_user_activity (after_sleep env w) <= a.
Proof.
  intros Hold Hnew.
  assert (Hno : forall l, forallb (fun e => negb (is_hangup e)) l = true ->
                          ~ In (t, Hangup) l).
  { intros l Hl Hin. rewrite forallb_forall in Hl. specialize (Hl _ Hin). discriminate. }
  destruct (iteration_trace idle_timeout warning_timeout env w)
    as (before & Nb & [Ht | (Ht & _ & Hh & Hs & Ha)]); rewrite Ht in Hnew.
  - apply in_app_or in Hnew. destruct Hnew as [H | H]; [contradiction |].
    exfalso. exact (Hno before Nb H).
  - apply in_app_or in Hnew. destruct Hnew as [H | H]; [contradiction |].
    apply in_app_or in H. destruct H as [H | H]; [exfalso; exact (Hno before Nb H) |].
    cbn in H. destruct H as [H | [H | [H | []]]]; try discriminate.
    injection H as <-. auto.
Qed.

(** The late reading of the example above: t = 16 s after a turn at t = 0. *)
Lemma hangup_needs_idle_time_and_a_silent_user_witness :
  let w := assistant_turn 0 (mkWorld (mkTimers None 0 false) []) in
  ~ In (16000000, Hangup) (trace w)
  /\ In (16000000, Hangup) (trace (snd (iteration 15 10 (silent_tick 16000000) w)))
  /\ exists a,
       last_agent_finish_time (after_sleep (silent_tick 16000000) w) = Some a
       /\ seconds 15 < 16000000 - a
       /\ last_user_activity (after_sleep (silent_tick 16000000) w) <= a.
Proof.
  assert (Hold : ~ In (16000000, Hangup)
                   (trace (assistant_turn 0 (mkWorld (mkTimers None 0 false) [])))).
  { intros []. }
  assert (Hnew : In (16000000, Hangup)
                   (trace (snd (iteration 15 10 (silent_tick 16000000)
                      (assistant_turn 0 (mkWorld (mkTimers None 0 false) [])))))).
  { cbn. auto. }
  split; [exact Hold |]. split; [exact Hnew |].
  exact (proj2 (proj2 (proj2
    (hangup_needs_idle_time_and_a_silent_user 15 10 (silent_tick 16000000)
       (assistant_turn 0 (mkWorld (mkTimers None 0 false) [])) 16000000 Hold Hnew)))).
Defined.

(** *** Warnings *)

Lemma warnings_app (l l' : list (Z * Effect)) :
  warnings (l ++ l') = (warnings l + warnings l')%nat.
Proof. unfold warnings. rewrite filter_app. apply length_app. Qed.

(** Warnings spoken so far, plus one while [warning_sent] is down and the
    loop goes on: an iteration without turn events does not make this grow. *)
Lemma iteration_warnings (idle warning : Z) (env : TickEnv) (w : World) :
  eventless env ->
  (warnings (trace (snd (iteration idle warning env w)))
   + match fst (iteration idle warning env w) with
     | Val Continue =>
         if warning_sent (timers (snd (iteration idle warning env w))) then 0 else 1
     | _ => 0
     end
   <= warnings (trace w) + if warning_sent (timers w) then 0 else 1)%nat.
Proof.
  intros [E1 E2]. rewrite iteration_unfold. unfold after_sleep, warnings. rewrite E1.
  cbn [fold_left]. destruct w as [[anchor u ws] tr]. cbn [timers trace
    last_agent_finish_time last_user_activity warning_sent].
  destruct (started_at_head env); cbn [negb]; [| cbn; destruct ws; lia].
  cbv zeta.
  destruct (wake (sleep_tick env)) as [[] | e]; [| cbn; lia].
  destruct anchor as [a |]; [| cbn; destruct ws; lia].
  destruct (u >? a); [cbn; destruct ws; lia |].
  unfold warning_check, idle_check, try_except, bind, get, emit, suspend, deliver,
    modify, set_warning_sent, set_last_agent_finish_time, hangup, await, ret.
  rewrite E2. cbn [timers trace warning_sent last_agent_finish_time
    last_user_activity fold_left].
  destruct (now_after_sleep env - a >? seconds warning), ws; cbn [andb negb];
    try destruct (started_at_warning env);
    try destruct (wake (say_warning env)) as [[] | [cls1 msg1 | ]];
    destruct (now_after_sleep env - a >? seconds idle);
    try destruct (started_at_hangup env);
    try destruct (wake (say_closing env)) as [[] | [cls2 msg2 | ]];
    try destruct (wake (sleep_closing env)) as [[] | [cls3 msg3 | ]];
    cbn; repeat rewrite filter_app; repeat rewrite length_app; cbn; lia.
Qed.

(** While no turn event arrives, the watcher speaks at most one warning,
    and none when [warning_sent] is already up, however the clock runs and
    however long the run is. *)
Theorem one_warning_between_turn_events
    (idle_timeout warning_timeout : Z) (envs : list TickEnv) (w : World) :
  Forall eventless envs ->
  (warnings (trace (snd (watch idle_timeout warning_timeout envs w)))
   <= warnings (trace w) + if warning_sent (timers w) then 0 else 1)%nat.
Proof.
  intros H. revert w. induction H as [| env envs He _ IH]; intros w.
  - cbn. lia.
  - cbn [watch].
    pose proof (iteration_warnings idle_timeout warning_timeout env w He) as B.
    destruct (iteration idle_timeout warning_timeout env w)
      as [[[ | ] | [cls msg | ]] w1]; cbn [fst snd] in *; try lia.
    specialize (IH w1). lia.
Qed.

(** A clock that jumps: readings 11 s, 40 s and 41 s after the turn, with a
    session that stops being started before the hang-up. *)
Lemma one_warning_between_turn_events_witness :
  let st := assistant_turn 0 (mkWorld (mkTimers None 0 false) []) in
  let envs := [silent_tick 11000000;
               mkTickEnv true quiet 40000000 true quiet 40000000 true quiet quiet] in
  Forall eventless envs
  /\ (warnings (trace (snd (watch 100 10 envs st))) <= 0 + 1)%nat.
Proof.
  assert (H : Forall eventless
                [silent_tick 11000000;
                 mkTickEnv true quiet 40000000 true quiet 40000000 true quiet quiet]).
  { repeat constructor. }
  split; [exact H |].
  exact (one_warning_between_turn_events 100 10 _
           (assistant_turn 0 (mkWorld (mkTimers None 0 false) [])) H).
Defined.

(** Thresholds the wrong way round.  With [idle_timeout] below
    [warning_timeout] (in whole seconds), silence after an assistant turn
    at [T], read every second, ends in the farewell at [T + idle_timeout + 1]
    without any warning having been spoken. *)
Theorem idle_below_warning_hangs_up_unwarned (T : Z) (i w : nat) (st : World) :
  last_user_activity (timers st) <= T ->
  (i < w)%nat ->
  watch (Z.of_nat i) (Z.of_nat w) (ticks_after T (i + 1)) (assistant_turn T st)
  = (Exited,
     mkWorld (mkTimers (Some T) (last_user_activity (timers st)) false)
             (trace st ++ farewell (T + seconds (Z.of_nat i + 1)))).
Proof.
  intros Hu Hiw. destruct st as [[anchor0 u ws0] tr].
  cbn [timers last_user_activity trace] in *.
  unfold assistant_turn, on_conversation_item.
  cbn [role clock String.eqb Ascii.eqb Bool.eqb timers trace last_user_activity].
  rewrite ticks_after_app.
  replace (ticks_after T i) with (ticks_after (T + seconds 0) i)
    by (f_equal; unfold seconds; lia).
  rewrite quiet_ticks by (auto; lia).
  cbn [ticks_after app watch].
  rewrite silent_iteration by exact Hu. cbv zeta.
  set (A := T + seconds (Z.of_nat i) + seconds 1).
  assert (E1 : (A - T >? seconds (Z.of_nat w)) = false).
  { destruct (Z.gtb_spec (A - T) (seconds (Z.of_nat w))); [| reflexivity].
    unfold A, seconds in *. lia. }
  assert (E2 : (A - T >? seconds (Z.of_nat i)) = true).
  { apply Z.gtb_lt. unfold A, seconds. lia. }
  rewrite E1, E2. cbn [andb].
  replace (T + seconds (Z.of_nat i + 1)) with A by (unfold A, seconds; lia).
  reflexivity.
Qed.

(** The defaults swapped: hang-up after 10 s, warning after 15 s. *)
Lemma idle_below_warning_hangs_up_unwarned_witness :
  let st := mkWorld (mkTimers None 0 false) [] in
  last_user_activity (timers st) <= 0
  /\ (10 < 15)%nat
  /\ watch 10 15 (ticks_after 0 11) (assistant_turn 0 st)
     = (Exited, mkWorld (mkTimers (Some 0) 0 false) (farewell 11000000)).
Proof.
  split; [cbn; lia |]. split; [lia |].
  apply (idle_below_warning_hangs_up_unwarned 0 10 15
           (mkWorld (mkTimers None 0 false) [])); [cbn; lia | lia].
Defined.

End WatchdogTraceFacts.

(** ** The socket client *)

Section SocketClientFacts.

Import SocketBackend SocketClient.
Local Open Scope Z_scope.

(** *** The URL and the call id *)

Lemma rstrip_slash_snoc (s : string) :
  rstrip_slash (s ++ "/") = rstrip_slash s.
Proof.
  induction s as [| c s IH]; [reflexivity |]. cbn [String.append rstrip_slash].
  rewrite IH. reflexivity.
Qed.

Lemma rstrip_slash_fixed (s : string) :
  ~ ends_with_slash s -> rstrip_slash s = s.
Proof.
  induction s as [| c s IH]; intros H; [reflexivity |]. cbn [rstrip_slash].
  destruct s as [| c' s'].
  - cbn. destruct (Ascii.eqb_spec c "/"%char) as [-> | _]; [| reflexivity].
    exfalso. apply H. exists "". reflexivity.
  - rewrite IH; [reflexivity |].
    intros [p Hp]. apply H. exists (String c p). cbn. rewrite <- Hp. reflexivity.
Qed.

Lemma rstrip_slash_no_slash (s : string) : ~ ends_with_slash (rstrip_slash s).
Proof.
  induction s as [| c s IH]; intros [p Hp].
  - destruct p; discriminate.
  - cbn [rstrip_slash] in Hp. destruct (rstrip_slash s) as [| c' r] eqn:R.
    + destruct (Ascii.eqb_spec c "/"%char) as [-> | Hc].
      * destruct p; discriminate.
      * destruct p as [| d p]; cbn in Hp.
        -- injection Hp as Hc'. contradiction.
        -- injection Hp as _ Hp. destruct p; discriminate.
    + destruct p as [| d p]; cbn in Hp; [discriminate |].
      injection Hp as _ Hp. apply IH. exists p. exact Hp.
Qed.

(** Trailing slashes of the base URL do not matter: the call id is always
    joined to it by exactly one slash.  A base without a trailing slash is
    used as it is. *)
Theorem full_ws_url_joins_with_one_slash (ws_url call_id : string) :
  full_ws_url (ws_url ++ "/") call_id = full_ws_url ws_url call_id
  /\ (exists base,
        full_ws_url ws_url call_id = (base ++ "/" ++ call_id)%string
        /\ ~ ends_with_slash base)
  /\ (~ ends_with_slash ws_url ->
      full_ws_url ws_url call_id = (ws_url ++ "/" ++ call_id)%string).
Proof.
  unfold full_ws_url. split; [| split].
  - rewrite rstrip_slash_snoc. reflexivity.
  - exists (rstrip_slash ws_url). split; [reflexivity | apply rstrip_slash_no_slash].
  - intros H. rewrite rstrip_slash_fixed by exact H. reflexivity.
Qed.

Lemma remove_hyphens_app (a b : string) :
  remove_hyphens (a ++ b) = (remove_hyphens a ++ remove_hyphens b)%string.
Proof.
  induction a as [| c a IH]; [reflexivity |]. cbn.
  destruct (Ascii.eqb c "-"%char); cbn; rewrite IH; reflexivity.
Qed.

Lemma remove_hyphens_none (a : string) :
  has_hyphen a = false -> remove_hyphens a = a.
Proof.
  unfold has_hyphen. induction a as [| c a IH]; [reflexivity |]. cbn.
  intros H. apply orb_false_elim in H. destruct H as [-> H]. rewrite IH by exact H.
  reflexivity.
Qed.

Lemma take_app (a b : string) : take (String.length a) (a ++ b) = a.
Proof. induction a as [| c a IH]; cbn; [destruct b; reflexivity | rewrite IH; reflexivity]. Qed.

(** The generated call id of a UUID in its usual text form, five groups of
    8, 4, 4, 4 and 12 digits, is its first four groups run together: 20
    characters, none of them a hyphen. *)
Theorem generate_call_id_keeps_twenty_digits (g1 g2 g3 g4 g5 : string) :
  String.length g1 = 8%nat -> String.length g2 = 4%nat -> String.length g3 = 4%nat ->
  String.length g4 = 4%nat ->
  has_hyphen g1 = false -> has_hyphen g2 = false -> has_hyphen g3 = false ->
  has_hyphen g4 = false -> has_hyphen g5 = false ->
  generate_call_id (g1 ++ "-" ++ g2 ++ "-" ++ g3 ++ "-" ++ g4 ++ "-" ++ g5)
  = (g1 ++ g2 ++ g3 ++ g4)%string
  /\ String.length
       (generate_call_id (g1 ++ "-" ++ g2 ++ "-" ++ g3 ++ "-" ++ g4 ++ "-" ++ g5)) = 20%nat
  /\ has_hyphen
       (generate_call_id (g1 ++ "-" ++ g2 ++ "-" ++ g3 ++ "-" ++ g4 ++ "-" ++ g5)) = false.
Proof.
  intros L1 L2 L3 L4 H1 H2 H3 H4 H5.
  assert (E : generate_call_id (g1 ++ "-" ++ g2 ++ "-" ++ g3 ++ "-" ++ g4 ++ "-" ++ g5)
              = (g1 ++ g2 ++ g3 ++ g4)%string).
  { unfold generate_call_id.
    repeat (rewrite remove_hyphens_app; cbn [remove_hyphens Ascii.eqb Bool.eqb String.append]).
    rewrite !remove_hyphens_none by assumption.
    replace (g1 ++ g2 ++ g3 ++ g4 ++ g5)%string with ((g1 ++ g2 ++ g3 ++ g4) ++ g5)%string
      by (rewrite !append_assoc; reflexivity).
    replace 20%nat with (String.length (g1 ++ g2 ++ g3 ++ g4))
      by (rewrite !length_append; lia).
    apply take_app. }
  rewrite E. split; [reflexivity |]. split.
  - rewrite !length_append. lia.
  - rewrite <- (remove_hyphens_none g1 H1), <- (remove_hyphens_none g2 H2),
      <- (remove_hyphens_none g3 H3), <- (remove_hyphens_none g4 H4).
    rewrite <- !remove_hyphens_app.
    clear. generalize (g1 ++ g2 ++ g3 ++ g4)%string. intros s. unfold has_hyphen.
    induction s as [| c s IH]; [reflexivity |]. cbn.
    destruct (Ascii.eqb c "-"%char) eqn:C; [exact IH |]. cbn. rewrite C. exact IH.
Qed.

Lemma generate_call_id_keeps_twenty_digits_witness :
  generate_call_id "123e4567-e89b-42d3-a456-426614174000" = "123e4567e89b42d3a456"
  /\ String.length (generate_call_id "123e4567-e89b-42d3-a456-426614174000") = 20%nat.
Proof.
  destruct (generate_call_id_keeps_twenty_digits
              "123e4567" "e89b" "42d3" "a456" "426614174000"
              eq_refl eq_refl eq_refl eq_refl eq_refl eq_refl eq_refl eq_refl eq_refl)
    as (E & L & _).
  split; [exact E | exact L].
Defined.

(** *** Connecting, closing, reconnecting *)

Lemma close_spec (closing : Res unit) (c : Client) :
  response_id_counter (snd (close closing c)) = response_id_counter c
  /\ wire (snd (close closing c)) = wire c.
Proof.
  unfold close, bind, get.
  destruct (ws c); try (cbn; auto; fail).
  destruct closing as [[] | e]; cbn; auto.
Qed.

Lemma apply_op_ordered (c : Client) (op : Op) :
  wire_ordered c -> wire_ordered (apply_op c op).
Proof.
  intros W. destruct op as [items env | closing | ]; cbn [apply_op].
  - apply send_request_ordered, W.
  - unfold wire_ordered. destruct (close_spec closing c) as [-> ->]. exact W.
  - destruct (ws c); exact W.
Qed.

(** Over the whole life of a client, through sends that fail, calls of
    [close], drops by the peer and reconnections, the requests put on the
    wire carry strictly increasing ids: no id is used twice. *)
Theorem response_ids_increase_across_reconnects (ops : list Op) :
  StronglySorted Z.lt (transmitted_ids (wire (life ops new_client))).
Proof.
  assert (H : forall c, wire_ordered c -> wire_ordered (life ops c)).
  { unfold life. induction ops as [| op ops IH]; intros c W; cbn; [exact W |].
    apply IH, apply_op_ordered, W. }
  exact (proj1 (H new_client new_client_ordered)).
Qed.

Lemma connections_snoc (w : list WireEvent) (e : WireEvent) :
  connections (w ++ [e])
  = (connections w + match e with Connected => 1 | _ => 0 end)%nat.
Proof.
  unfold connections. rewrite filter_app, length_app. destruct e; reflexivity.
Qed.

(** With the network up, a send on an open socket does not connect and a
    send on any other socket connects once; the socket is open afterwards. *)
Lemma send_connects_when_needed (items : list ChatItem) (c : Client) :
  ws (snd (send_request items network_up c)) = OpenSocket
  /\ connections (wire (snd (send_request items network_up c)))
     = (connections (wire c)
        + match ws c with OpenSocket => 0 | _ => 1 end)%nat.
Proof.
  rewrite send_request_unfold.
  destruct c as [[ | | ] n w]; cbn;
    destruct (latest_user_message items); cbn;
    (split; [reflexivity |]); unfold connections;
    repeat rewrite filter_app; repeat rewrite length_app; cbn; lia.
Qed.

(** The connection is made on first use and then reused: however many
    turns are sent while the network is up and nobody closes the socket,
    the client connects exactly once. *)
Theorem one_connection_serves_all_turns (turns : list (list ChatItem)) :
  turns <> [] ->
  connections (wire (life (map (fun items => Send items network_up) turns) new_client))
  = 1%nat
  /\ ws (life (map (fun items => Send items network_up) turns) new_client) = OpenSocket.
Proof.
  assert (H : forall ts c, ws c = OpenSocket ->
            connections (wire (life (map (fun items => Send items network_up) ts) c))
            = connections (wire c)
            /\ ws (life (map (fun items => Send items network_up) ts) c) = OpenSocket).
  { unfold life. induction ts as [| items ts IH]; intros c O; cbn; [auto |].
    destruct (send_connects_when_needed items c) as [O' C'].
    destruct (IH _ O') as [E1 E2]. rewrite E1, E2, C', O. split; [lia | reflexivity]. }
  destruct turns as [| items turns]; [contradiction |]. intros _.
  unfold life. cbn [map fold_left apply_op].
  destruct (send_connects_when_needed items new_client) as [O C].
  destruct (H turns _ O) as [E1 E2]. unfold life in E1, E2.
  rewrite E1, E2, C. auto.
Qed.

Lemma one_connection_serves_all_turns_witness :
  [[user_says "hello"]; []; [user_says "and the price?"]] <> []
  /\ connections
       (wire (life (map (fun items => Send items network_up)
                        [[user_says "hello"]; []; [user_says "and the price?"]])
                   new_client)) = 1%nat.
Proof.
  assert (H : [[user_says "hello"]; []; [user_says "and the price?"]] <> [])
    by discriminate.
  split; [exact H |].
  exact (proj1 (one_connection_serves_all_turns _ H)).
Defined.

(** [close] on an open socket marks it closed without touching the counter
    or the wire, so that the next send connects again; on a socket that is
    not open it does nothing at all. *)
Theorem close_then_send_reconnects
    (items : list ChatItem) (c : Client) :
  (ws c <> OpenSocket -> forall closing, close closing c = (Val tt, c))
  /\ (ws c = OpenSocket ->
      close (Val tt) c = (Val tt, mkClient ClosedSocket (response_id_counter c) (wire c))
      /\ connections (wire (snd (send_request items network_up (snd (close (Val tt) c)))))
         = S (connections (wire c)))
  /\ close (Val tt) (snd (close (Val tt) c)) = (Val tt, snd (close (Val tt) c)).
Proof.
  split; [| split].
  - intros H closing. unfold close, bind, get. destruct (ws c); [reflexivity | | reflexivity].
    contradiction.
  - intros O. assert (E : close (Val tt) c
                          = (Val tt, mkClient ClosedSocket (response_id_counter c) (wire c))).
    { unfold close, bind, get. rewrite O. reflexivity. }
    split; [exact E |]. rewrite E. cbn [snd].
    rewrite (proj2 (send_connects_when_needed items _)). cbn [ws wire]. lia.
  - unfold close, bind, get. destruct c as [[ | | ] n w]; reflexivity.
Qed.

(** A connect that succeeds followed by a handshake read that raises: the
    exception goes to the caller of [_send_request] and nothing is
    transmitted.  What the next call does depends on the socket.  An
    exception that reports the connection closed leaves [close_code] set,
    and the next [_send_request] connects a second time.  Any other
    exception, a cancellation for one, leaves the new socket in place and
    open: the next [_ensure_connection] neither connects nor reads the two
    handshake frames. *)
Theorem failed_handshake_reconnects_only_if_closed
    (items : list ChatItem) (env : SendEnv) (c : Client) (e : PyExc) :
  ws c <> OpenSocket ->
  connect_result env = Val tt ->
  (config_result env = Raised e
   \/ (config_result env = Val tt /\ greeting_result env = Raised e)) ->
  send_request items env c
  = (Raised e,
     mkClient (if connection_closed e then ClosedSocket else OpenSocket)
              (response_id_counter c) (wire c ++ [Connected]))
  /\ (connection_closed e = false ->
      forall env',
        ensure_connection env' (snd (send_request items env c))
        = (Val tt, snd (send_request items env c)))
  /\ (connection_closed e = true ->
      forall items',
        connections
          (wire (snd (send_request items' network_up (snd (send_request items env c)))))
        = S (S (connections (wire c)))).
Proof.
  intros Hc Hk Hh.
  assert (E : send_request items env c
              = (Raised e,
                 mkClient (if connection_closed e then ClosedSocket else OpenSocket)
                          (response_id_counter c) (wire c ++ [Connected]))).
  { rewrite send_request_unfold. unfold ensure_connection, bind, get, emit, set_ws,
      modify, await.
    destruct c as [[ | | ] n w]; cbn in Hc |- *; try contradiction; rewrite Hk;
      destruct Hh as [-> | [-> ->]]; unfold on_socket, bind, set_ws, modify, raise, ret;
      destruct (connection_closed e); reflexivity. }
  split; [exact E |]. rewrite E. cbn [snd]. split.
  - intros K env'. rewrite K. reflexivity.
  - intros K items'. rewrite K.
    rewrite (proj2 (send_connects_when_needed items' _)). cbn [ws wire].
    rewrite connections_snoc. lia.
Qed.

(** The task that connects is cancelled while it waits for the config
    frame. *)
Lemma failed_handshake_reconnects_only_if_closed_witness :
  ws new_client <> OpenSocket
  /\ send_request [user_says "hello"]
       (mkSendEnv (Val tt) (Raised CancelledError) (Val tt) (Val tt)) new_client
     = (Raised CancelledError, mkClient OpenSocket 0 [Connected])
  /\ ensure_connection network_up (mkClient OpenSocket 0 [Connected])
     = (Val tt, mkClient OpenSocket 0 [Connected]).
Proof.
  assert (H : ws new_client <> OpenSocket) by discriminate.
  split; [exact H |].
  pose proof (failed_handshake_reconnects_only_if_closed [user_says "hello"]
                (mkSendEnv (Val tt) (Raised CancelledError) (Val tt) (Val tt))
                new_client CancelledError H eq_refl (or_introl eq_refl)) as [E [O _]].
  split; [exact E |]. exact (O eq_refl network_up).
Defined.

(** The peer closes the connection before the greeting: the next send
    connects again. *)
Example closed_during_handshake_is_connected_again :
  life [Send [user_says "hello"]
          (mkSendEnv (Val tt) (Val tt)
                     (Raised (PyException "ConnectionClosedError" "no close frame received"))
                     (Val tt));
        Send [user_says "hello"] network_up] new_client
  = mkClient OpenSocket 1
      [Connected; Connected;
       Transmitted (mkRequest "response_required" 1 [("user", "hello")])].
Proof. reflexivity. Qed.

(** *** Draining *)

(** Draining frame by frame: while the generator is still waiting, the
    frames that arrive next are drained as a run of their own and what
    they yield is appended; once it has completed or failed, frames that
    arrive later are not read. *)
Theorem receive_response_continues_where_it_waits
    (N : Z) (inbound more : list Inbound) :
  receive_response N (inbound ++ more) =
  match snd (receive_response N inbound) with
  | Waiting =>
      ((fst (receive_response N inbound) ++ fst (receive_response N more))%list,
       snd (receive_response N more))
  | _ => receive_response N inbound
  end.
Proof.
  induction inbound as [| f inbound IH].
  - cbn. destruct (receive_response N more). reflexivity.
  - cbn [app receive_response]. destruct f as [raw | v | e]; [exact IH | | reflexivity].
    destruct v as [ | | | | | | response]; try reflexivity.
    destruct (py_eq_str _ _ && py_eq_int _ _); [| exact IH].
    destruct (truthy (dict_get response "content" (JStr ""))).
    + destruct (dict_get response "content" (JStr "")); try reflexivity.
      destruct (truthy (dict_get response "content_complete" (JBool false)));
        [reflexivity |].
      rewrite IH. destruct (receive_response N inbound) as [deltas []];
        cbn [fst snd]; reflexivity.
    + destruct (truthy (dict_get response "content_complete" (JBool false)));
        [reflexivity | exact IH].
Qed.

(** Whatever arrives on the socket, protocol or not, the generator never
    yields an empty delta. *)
Theorem receive_response_never_yields_an_empty_delta
    (N : Z) (inbound : list Inbound) :
  Forall (fun delta => delta <> "") (fst (receive_response N inbound)).
Proof.
  induction inbound as [| f inbound IH]; [constructor |].
  cbn [receive_response]. destruct f as [raw | v | e]; [exact IH | | constructor].
  destruct v as [ | | | | | | response]; try constructor.
  destruct (py_eq_str _ _ && py_eq_int _ _); [| exact IH].
  destruct (truthy (dict_get response "content" (JStr ""))) eqn:T.
  - destruct (dict_get response "content" (JStr "")) as [ | | | | s | | ];
      try constructor.
    assert (Hs : s <> "").
    { cbn in T. intros ->. discriminate. }
    destruct (truthy (dict_get response "content_complete" (JBool false))).
    + repeat constructor. exact Hs.
    + destruct (receive_response N inbound) as [deltas o]. cbn [fst] in *.
      constructor; assumption.
  - destruct (truthy (dict_get response "content_complete" (JBool false)));
      [constructor | exact IH].
Qed.

(** Frames that answer another request are stepped over. *)
Lemma other_answers_are_skipped (N : Z) (stale inbound : list Inbound) :
  Forall (fun f => exists id, id <> N /\ answers id f) stale ->
  receive_response N (stale ++ inbound) = receive_response N inbound.
Proof.
  induction 1 as [| f stale (id & Hid & content & complete & ->) _ IH]; [reflexivity |].
  cbn [app receive_response response_frame dict_get lookup String.eqb Ascii.eqb Bool.eqb
       py_eq_str py_eq_int andb].
  destruct (Z.eqb_spec id N); [contradiction | exact IH].
Qed.

Lemma life_ordered (ops : list Op) : wire_ordered (life ops new_client).
Proof.
  assert (H : forall c, wire_ordered c -> wire_ordered (life ops c)).
  { unfold life. induction ops as [| op ops IH]; intros c W; cbn; [exact W |].
    apply IH, apply_op_ordered, W. }
  exact (H new_client new_client_ordered).
Qed.

(** Answers to earlier requests never reach a later turn.  On a client
    with any history, frames that answer requests it transmitted before,
    still unread on the socket when a new turn drains, change nothing of
    what that turn yields or of how it ends. *)
Theorem stale_answers_never_reach_a_later_turn
    (ops : list Op) (items : list ChatItem) (env : SendEnv)
    (stale inbound : list Inbound) :
  Forall (fun f => exists id,
            In id (transmitted_ids (wire (life ops new_client))) /\ answers id f) stale ->
  chat_turn items env (stale ++ inbound) (life ops new_client)
  = chat_turn items env inbound (life ops new_client).
Proof.
  intros H. destruct (life_ordered ops) as [_ Hb].
  set (c := life ops new_client) in *.
  unfold chat_turn, bind.
  pose proof (send_request_spec items env c) as Hs. cbv zeta in Hs.
  destruct (send_request items env c) as [[id | e] c1]; [| reflexivity].
  cbn [fst snd] in Hs.
  assert (Hid : id = response_id_counter c + 1).
  { destruct Hs as [(_ & _ & e & He) | (_ & _ & _ & _ & _ & _ & _ & _ & [He | [e He]])];
      try discriminate. injection He as ->. reflexivity. }
  rewrite other_answers_are_skipped; [reflexivity |].
  eapply Forall_impl; [| exact H]. cbn. intros f (id' & Hin & Ha).
  exists id'. split; [| exact Ha].
  rewrite Forall_forall in Hb. specialize (Hb id' Hin). lia.
Qed.

(** Turn 1 was abandoned after its first frame; its remaining frames are
    still on the socket when turn 2 drains. *)
Lemma stale_answers_never_reach_a_later_turn_witness :
  let ops := [Send [user_says "hello"] network_up] in
  let stale := [response_frame 1 "Hi, " false; response_frame 1 "there" true] in
  let inbound := [response_frame 2 "Sure." true] in
  Forall (fun f => exists id,
            In id (transmitted_ids (wire (life ops new_client))) /\ answers id f) stale
  /\ chat_turn [user_says "and the price?"] network_up (stale ++ inbound)
       (life ops new_client)
     = chat_turn [user_says "and the price?"] network_up inbound (life ops new_client)
  /\ fst (chat_turn [user_says "and the price?"] network_up (stale ++ inbound)
            (life ops new_client))
     = Val ([mkStreamChunk "Sure." "assistant"], Completed).
Proof.
  assert (H : Forall (fun f => exists id,
                 In id (transmitted_ids
                          (wire (life [Send [user_says "hello"] network_up] new_client)))
                 /\ answers id f)
                [response_frame 1 "Hi, " false; response_frame 1 "there" true]).
  { repeat constructor; exists 1; (split; [cbn; auto | eexists; eexists; reflexivity]). }
  split; [exact H |]. split; [| reflexivity].
  exact (stale_answers_never_reach_a_later_turn
           [Send [user_says "hello"] network_up] [user_says "and the price?"] network_up
           [response_frame 1 "Hi, " false; response_frame 1 "there" true]
           [response_frame 2 "Sure." true] H).
Defined.

End SocketClientFacts.

(** ** More on the hosted-provider stream *)

Section HostedStreamFacts.

Import HostedBackend.





End HostedStreamFacts.

(** ** Text, message conversion and reply cleaning *)

Section PyTextFacts.

Import PyText.
Local Open Scope N_scope.
Local Open Scope list_scope.

Lemma lstrip_starts_clean (s : str) : starts_clean (lstrip s).
Proof.
  induction s as [| c s IH]; cbn; [exact I |].
  destruct (isspace c) eqn:C; [exact IH | exact C].
Qed.

Lemma lstrip_fixed (s : str) : starts_clean s -> lstrip s = s.
Proof. destruct s as [| c s]; cbn; [reflexivity | intros ->; reflexivity]. Qed.

(** Stripping on the left stops at the first character that is no space. *)
Lemma lstrip_app (x : str) (c : N) (y : str) :
  isspace c = false -> lstrip (x ++ c :: y) = (lstrip x ++ c :: y)%list.
Proof.
  intros C. induction x as [| a x IH]; cbn; [rewrite C; reflexivity |].
  destruct (isspace a); [exact IH | reflexivity].
Qed.

Lemma rstrip_app (x : str) (c : N) (y : str) :
  isspace c = false -> rstrip (x ++ c :: y) = (x ++ c :: rstrip y)%list.
Proof.
  intros C. unfold rstrip. rewrite rev_app_distr. cbn [rev].
  rewrite <- app_assoc. cbn [app]. rewrite lstrip_app by exact C.
  rewrite rev_app_distr. cbn [rev]. rewrite rev_involutive, <- app_assoc.
  reflexivity.
Qed.

Lemma rstrip_space (w : N) : isspace w = true -> rstrip [w] = [].
Proof. intros W. unfold rstrip. cbn. rewrite W. reflexivity. Qed.

Lemma strip_trimmed (s : str) : trimmed (strip s).
Proof.
  unfold trimmed, strip, rstrip. rewrite rev_involutive. split.
  - pose proof (lstrip_starts_clean s) as H. destruct (lstrip s) as [| c t]; [exact I |].
    cbn [rev starts_clean] in *. rewrite lstrip_app by exact H.
    rewrite rev_app_distr. cbn. exact H.
  - apply lstrip_starts_clean.
Qed.

Lemma strip_fixed (s : str) : trimmed s -> strip s = s.
Proof.
  intros [H1 H2]. unfold strip, rstrip.
  rewrite (lstrip_fixed s H1), (lstrip_fixed (rev s) H2). apply rev_involutive.
Qed.

End PyTextFacts.

Section GroqMessagesFacts.

Import PyText GroqMessages.
Local Open Scope list_scope.

Lemma keep_spec (r c : str) :
  Forall (fun m => role m = r /\ content m <> [] /\ trimmed (content m)) (keep r c).
Proof.
  unfold keep. pose proof (strip_trimmed c) as T.
  destruct (strip c) as [| x rest]; constructor; [| constructor].
  cbn. repeat split; try apply T. discriminate.
Qed.

Lemma normal_role_cases (role_str : str) :
  normal_role role_str = lit "user"
  \/ normal_role role_str = lit "assistant"
  \/ normal_role role_str = lit "system".
Proof.
  unfold normal_role.
  destruct (contains (lit "user") role_str); [auto |].
  destruct (contains (lit "assistant") role_str); [auto |].
  destruct (contains (lit "system") role_str); auto.
Qed.

(** Each round of the loop keeps at most one message, stripped. *)
Lemma convert_message_contents (msg : Message) :
  Forall (fun m => content m <> [] /\ trimmed (content m)) (convert_message msg).
Proof.
  destruct msg as [role_lower c | r c | repr | ]; cbn [convert_message];
    try constructor;
    (eapply Forall_impl; [| apply keep_spec]); cbn; tauto.
Qed.

Lemma convert_messages_contents (lk_messages : list Message) :
  Forall (fun m => content m <> [] /\ trimmed (content m)) (convert_messages lk_messages).
Proof.
  unfold convert_messages. induction lk_messages as [| msg l IH]; [constructor |].
  cbn [flat_map]. apply Forall_app. split; [apply convert_message_contents | exact IH].
Qed.

(** What reaches the provider is clean.  Every converted message has a
    content that is not empty and neither begins nor ends with a space
    character; no more messages come out than went in; and unless the
    input holds dicts, whose role is passed through as it is, every role
    is one of [user], [assistant], [system]. *)
Theorem converted_messages_are_clean (lk_messages : list Message) :
  Forall (fun m => content m <> [] /\ trimmed (content m)) (convert_messages lk_messages)
  /\ (List.length (convert_messages lk_messages) <= List.length lk_messages)%nat
  /\ (forallb (fun msg => negb (is_dict msg)) lk_messages = true ->
      Forall (fun m => role m = lit "user" \/ role m = lit "assistant"
                       \/ role m = lit "system")
             (convert_messages lk_messages)).
Proof.
  unfold convert_messages. induction lk_messages as [| msg l (IH1 & IH2 & IH3)].
  - cbn. repeat split; auto.
  - cbn [flat_map forallb List.length].
    assert (K : exists r c, convert_message msg = keep r c
                /\ (is_dict msg = false ->
                    r = lit "user" \/ r = lit "assistant" \/ r = lit "system")
                \/ convert_message msg = []).
    { destruct msg as [role_lower c | r c | repr | ]; cbn [convert_message is_dict].
      - eexists _, _. left. split; [reflexivity |]. intros _. apply normal_role_cases.
      - eexists _, _. left. split; [reflexivity |]. discriminate.
      - eexists _, _. left. split; [reflexivity |]. auto.
      - exists [], []. right. reflexivity. }
    destruct K as (r & c & [[E Hr] | E]); rewrite E.
    + pose proof (keep_spec r c) as Hk.
      assert (Hl : (List.length (keep r c) <= 1)%nat)
        by (unfold keep; destruct (strip c); cbn; lia).
      split; [| split].
      * apply Forall_app. split; [| exact IH1].
        eapply Forall_impl; [| exact Hk]. cbn. tauto.
      * rewrite length_app. lia.
      * intros H. apply andb_prop in H. destruct H as [Hd H].
        apply Forall_app. split; [| apply IH3, H].
        eapply Forall_impl; [| exact Hk]. cbn. intros m (-> & _).
        apply Hr. destruct (is_dict msg); [discriminate | reflexivity].
    + cbn [app]. split; [exact IH1 |]. split; [lia |].
      intros H. apply andb_prop in H. apply IH3, H.
Qed.

Lemma reconvert_one (m : GroqMessage) :
  content m <> [] -> trimmed (content m) -> convert_message (as_dict m) = [m].
Proof.
  intros N T. destruct m as [r c]. cbn in *. unfold keep.
  rewrite (strip_fixed c T). destruct c; [contradiction | reflexivity].
Qed.

(** Converting is idempotent: the messages it produces, handed in again
    as the dicts they are, come out unchanged. *)
Theorem converting_again_changes_nothing (lk_messages : list Message) :
  convert_messages (map as_dict (convert_messages lk_messages))
  = convert_messages lk_messages.
Proof.
  pose proof (convert_messages_contents lk_messages) as H.
  induction H as [| m l [N T] _ IH]; [reflexivity |].
  cbn [map]. unfold convert_messages in *. cbn [flat_map].
  rewrite IH, (reconvert_one m N T). reflexivity.
Qed.

End GroqMessagesFacts.

Section ReplyCleaningFacts.

Import PyText ReplyCleaning.
Local Open Scope N_scope.
Local Open Scope list_scope.

Lemma starts_with_app (p x : str) : starts_with p (p ++ x) = true.
Proof.
  induction p as [| a p IH]; [reflexivity |]. cbn. rewrite N.eqb_refl. exact IH.
Qed.

Lemma ends_with_app (p x : str) : ends_with p (x ++ p) = true.
Proof. unfold ends_with. rewrite rev_app_distr. apply starts_with_app. Qed.

Lemma drop_fence_close (x : str) :
  firstn (List.length (x ++ fence_close) - 3) (x ++ fence_close) = x.
Proof.
  rewrite length_app. cbn [fence_close lit List.length map list_ascii_of_string].
  replace (List.length x + 3 - 3)%nat with (List.length x + 0)%nat by lia.
  rewrite firstn_app_2. cbn. apply app_nil_r.
Qed.

(** A reply wrapped in the Markdown fence for JSON is unwrapped: what goes
    to [json.loads] is the text between the fences, stripped. *)
Theorem fenced_reply_is_unwrapped (body : str) :
  clean_reply (fence_open ++ body ++ fence_close) = strip body.
Proof.
  unfold clean_reply. rewrite starts_with_app.
  replace (skipn 7 (fence_open ++ body ++ fence_close)) with (body ++ fence_close)
    by reflexivity.
  rewrite ends_with_app, drop_fence_close. reflexivity.
Qed.

Lemma space_is_no_backtick (w : N) : isspace w = true -> (96 =? w) = false.
Proof.
  intros W. destruct (N.eqb_spec 96 w) as [<- | _]; [discriminate | reflexivity].
Qed.

(** The fences are looked for before the text is stripped.  With a space
    character in front of the opening fence only the closing fence is
    removed, and with one after the closing fence only the opening one:
    the other fence stays in what goes to [json.loads]. *)
Theorem space_around_the_fences_leaves_one_in (w : N) (body : str) :
  isspace w = true ->
  clean_reply (w :: fence_open ++ body ++ fence_close) = fence_open ++ rstrip body
  /\ clean_reply (fence_open ++ body ++ fence_close ++ [w]) = lstrip body ++ fence_close.
Proof.
  intros W. pose proof (space_is_no_backtick w W) as B. split.
  - unfold clean_reply.
    assert (S0 : starts_with fence_open (w :: fence_open ++ body ++ fence_close) = false).
    { change fence_open with (96 :: [96; 96; 106; 115; 111; 110]) at 1.
      cbn [starts_with]. rewrite B. reflexivity. }
    rewrite S0.
    change (w :: fence_open ++ body ++ fence_close)
      with ((w :: fence_open ++ body) ++ fence_close).
    rewrite ends_with_app, drop_fence_close. unfold strip. cbn [lstrip]. rewrite W.
    rewrite lstrip_fixed by reflexivity.
    change (fence_open ++ body) with ([96; 96; 96; 106; 115; 111] ++ 110 :: body).
    rewrite rstrip_app by reflexivity. reflexivity.
  - unfold clean_reply. rewrite starts_with_app.
    replace (skipn 7 (fence_open ++ body ++ fence_close ++ [w]))
      with (body ++ fence_close ++ [w]) by reflexivity.
    assert (E : ends_with fence_close (body ++ fence_close ++ [w]) = false).
    { unfold ends_with. rewrite !rev_app_distr.
      change (rev fence_close) with [96; 96; 96]. cbn [rev app starts_with].
      rewrite B. reflexivity. }
    rewrite E. unfold strip.
    change (body ++ fence_close ++ [w]) with (body ++ 96 :: [96; 96; w]).
    rewrite lstrip_app by reflexivity.
    change (lstrip body ++ 96 :: [96; 96; w]) with (lstrip body ++ 96 :: 96 :: 96 :: [w]).
    replace (lstrip body ++ 96 :: 96 :: 96 :: [w])
      with ((lstrip body ++ [96; 96]) ++ 96 :: [w]) by (rewrite <- app_assoc; reflexivity).
    rewrite rstrip_app by reflexivity. rewrite rstrip_space by exact W.
    rewrite <- app_assoc. reflexivity.
Qed.

(** A newline after the closing fence. *)
Lemma space_around_the_fences_leaves_one_in_witness :
  isspace 10 = true
  /\ clean_reply (lit "```json" ++ lit "{}" ++ lit "```" ++ [10]) = lit "{}```".
Proof.
  split; [reflexivity |].
  exact (proj2 (space_around_the_fences_leaves_one_in 10 (lit "{}") eq_refl)).
Defined.

End ReplyCleaningFacts.

(** ** Hanging up from the function tools *)

Section ToolHangupFacts.

Import CallTerminator AgentTools.

(** A tool call hangs up exactly when it returns: [end_call] and
    [detected_answering_machine] call [hangup()] once, as their last step,
    if nothing before it raised, and not at all if the recording was
    cancelled, the playout wait failed or the closing line could not be
    spoken. *)
Theorem tool_call_hangs_up_iff_it_returns (t : ToolCall) (w : World) :
  filter is_hangup (trace (snd (invoke t w)))
  = (filter is_hangup (trace w)
     ++ match fst (invoke t w) with
        | Val _ => [Hangup]
        | Raised _ => []
        end)%list.
Proof.
  destruct w as [[started recorded room] tr].
  destruct t as [participant current_language [ins speech say] | participant io];
    cbn [invoke].
  - unfold end_call, closing, record_call_end, record_call_end_enter,
      record_call_end_resume, guarded, try_except, bind, get, emit, hangup,
      set_call_end_recorded, modify, await, ret.
    cbn [call_state trace call_started call_end_recorded room_name
         insert_result current_speech say_result].
    destruct started, recorded; cbn [orb negb];
      try destruct ins as [op | [cls msg | ]];
      destruct speech as [[[] | e1] | ];
      destruct say as [[] | e2];
      cbn; repeat rewrite filter_app; cbn; repeat rewrite app_nil_r; reflexivity.
  - unfold detected_answering_machine, record_call_end, record_call_end_enter,
      record_call_end_resume, guarded, try_except, bind, get, emit, hangup,
      set_call_end_recorded, modify, await, ret.
    cbn [call_state trace call_started call_end_recorded room_name].
    destruct started, recorded; cbn [orb negb];
      try destruct io as [op | [cls msg | ]];
      cbn; repeat rewrite filter_app; cbn; repeat rewrite app_nil_r; reflexivity.
Qed.

End ToolHangupFacts.
